(** * Deep Embedded Clustering: the numeric core of
      [Clustering/ConvolutionalAutoencoder.py]

    The development embeds the five hand-written pieces of the script:
    - [acc_cluster], the clustering accuracy under the best matching of
      cluster indices to labels;
    - [ClusteringLayer.call], the student-t soft assignment;
    - [target_distribution], the sharpening rule;
    - the training loop of the [__main__] block with its minibatch cursor;
    - the life cycle of [ClusteringLayer]: the keyword arguments of
      [__init__], [build], [compute_output_shape] and [get_config].

    Tensors are lists (vectors) and lists of rows (matrices).  The tensor
    code is written once, over a [Scalar] interface, the way numpy and
    Keras code is generic in its dtype, and is then read in two number
    systems: IEEE 754 binary32 (the dtype the script runs in), where the
    special values of a division by zero are visible, and the real
    numbers, where the algebraic identities are stated and every
    denominator is shown to be different from zero. *)

From Stdlib Require Import ZArith QArith Reals Lra Lia List.
From Stdlib Require Import Floats.SpecFloat.
From stdpp Require Import base list gmap strings.

(** ** Scalars *)

Class Scalar (A : Type) := {
  zero : A;
  one  : A;
  add  : A -> A -> A;
  sub  : A -> A -> A;
  mul  : A -> A -> A;
  div  : A -> A -> A
}.

(** [x ** y] of the backend, for a floating exponent. *)
Class Power (A : Type) := pow : A -> A -> A.

(** Comparison, as used by [argmax]: [ltb x y] is [x < y]. *)
Class Ordered (A : Type) := ltb : A -> A -> bool.

(** *** IEEE 754 binary32 *)

Module F32.

Definition prec : Z := 24.
Definition emax : Z := 128.

Definition f32 : Type := spec_float.

Definition pzero : f32 := S754_zero false.
Definition nan : f32 := S754_nan.
Definition fone : f32 := Eval cbv in SFone prec emax.

Definition fadd : f32 -> f32 -> f32 := SFadd prec emax.
Definition fsub : f32 -> f32 -> f32 := SFsub prec emax.
Definition fmul : f32 -> f32 -> f32 := SFmul prec emax.
Definition fdiv : f32 -> f32 -> f32 := SFdiv prec emax.

(** [0 <= x]; false on NaN, as every IEEE comparison is. *)
Definition nonneg (x : f32) : bool := SFleb pzero x.

Definition is_nan (x : f32) : bool :=
  match x with S754_nan => true | _ => false end.

Definition is_zero (x : f32) : bool :=
  match x with S754_zero _ => true | _ => false end.

(** [|x - 1| <= tol]; false on NaN. *)
Definition near_one (tol x : f32) : bool :=
  SFleb (SFabs (fsub x fone)) tol.

#[global] Instance f32_scalar : Scalar f32 :=
  {| zero := pzero; one := fone;
     add := fadd; sub := fsub; mul := fmul; div := fdiv |}.

#[global] Instance f32_ordered : Ordered f32 := SFltb.

End F32.

(** *** Real numbers *)

#[global] Instance R_scalar : Scalar R :=
  {| zero := 0%R; one := 1%R;
     add := Rplus; sub := Rminus; mul := Rmult; div := Rdiv |}.

(** The backend's power is only ever applied to a positive base here
    (see [affinity_range]), where it is [exp (y * ln x)]. *)
#[global] Instance R_power : Power R := Rpower.

#[global] Instance R_ordered : Ordered R :=
  fun x y => if Rlt_dec x y then true else false.

(** ** Tensors *)

Abbreviation vector A := (list A).
Abbreviation matrix A := (list (list A)).

Section Tensor.
Context {A : Type} `{Scalar A}.

(** [np.sum] of a vector: the additive reduction, from the identity 0 and
    from left to right.  numpy regroups a contiguous reduction of eight
    terms or more pairwise, so in binary32 its sum can differ from this
    one in the last bit; over the reals it is the same sum, and a NaN
    term makes the sum NaN, and terms that are all zero make it zero, in
    any grouping.  What is stated in binary32 below is about NaN, about
    zeros and about rows of fewer than eight entries. *)
Definition vsum (v : vector A) : A := fold_left add v zero.

(** [m.shape[1]] *)
Definition ncols (m : matrix A) : nat := length (hd [] m).

(** [m.T] for [m] with [k] columns. *)
Definition transpose (k : nat) (m : matrix A) : matrix A :=
  map (fun j => map (fun row => nth j row zero) m) (seq 0 k).

(** [m.sum(0)]: one sum per column. *)
Definition sum_axis0 (m : matrix A) : vector A :=
  map vsum (transpose (ncols m) m).

(** [m.sum(1)]: one sum per row. *)
Definition sum_axis1 (m : matrix A) : vector A := map vsum m.

(** [m ** 2] *)
Definition square (m : matrix A) : matrix A :=
  map (map (fun x => mul x x)) m.

(** [m / v], the vector [v] broadcast over the rows of [m]. *)
Definition div_rows (m : matrix A) (v : vector A) : matrix A :=
  map (fun row => zip_with div row v) m.

(** [(m.T / m.sum(1)).T]: every row divided by its own sum. *)
Definition normalize_rows (m : matrix A) : matrix A :=
  transpose (length m) (div_rows (transpose (ncols m) m) (sum_axis1 m)).

(** [weight = q ** 2 / q.sum(0)] *)
Definition sharpen_weight (q : matrix A) : matrix A :=
  div_rows (square q) (sum_axis0 q).

(** <<
    def target_distribution(q):
        weight = q ** 2 / q.sum(0)
        return (weight.T / weight.sum(1)).T
    >> *)
Definition target_distribution (q : matrix A) : matrix A :=
  let weight := sharpen_weight q in
  normalize_rows weight.

(** Squared Euclidean distance,
    [K.sum(K.square(x - mu))] over the feature axis. *)
Definition sqdist (x mu : vector A) : A :=
  vsum (map (fun d => mul d d) (zip_with sub x mu)).

(** A matrix with [n] rows of [k] entries each. *)
Definition shaped (n k : nat) (m : matrix A) : Prop :=
  length m = n /\ Forall (fun row => length row = k) m.

(** The sum of column [j], an entry of [m.sum(0)]. *)
Definition colsum (m : matrix A) (j : nat) : A :=
  vsum (map (fun row => nth j row zero) m).

(** One row of [q ** 2 / f] for column sums [f]. *)
Definition weight_row (f : nat -> A) (k : nat) (row : vector A) : vector A :=
  map (fun j => div (mul (nth j row zero) (nth j row zero)) (f j))
      (seq 0 k).

End Tensor.

(** What it is for a binary32 matrix to be a soft assignment: every entry
    is non-negative and every row sums to 1 within [tol]. *)
Definition f32_stochastic (tol : F32.f32) (m : matrix F32.f32) : bool :=
  forallb (fun row => forallb F32.nonneg row && F32.near_one tol (vsum row))
          m.

(** The same for a real matrix, with exact sums. *)
Definition stochastic (m : matrix R) : Prop :=
  Forall (fun row => Forall (fun x => (0 <= x)%R) row /\ vsum row = 1%R) m.

(** A row with 1 in column [c] and 0 elsewhere. *)
Definition onehot (k c : nat) : vector R :=
  map (fun j => if j =? c then 1%R else 0%R) (seq 0 k).

(** ** The clustering layer *)

Section ClusteringLayer.
Context {A : Type} `{Scalar A} `{Power A}.

(** The layer keeps [alpha] and its weights, the cluster centres
    (one row per cluster). *)
Record ClusteringLayer := {
  alpha : A;
  clusters : matrix A
}.

(** First two lines of [call], for one sample and one centre:
    [q = 1.0 / (1.0 + sqdist / alpha)] then
    [q **= (alpha + 1.0) / 2.0]. *)
Definition affinity (self : ClusteringLayer) (x mu : vector A) : A :=
  pow (div one (add one (div (sqdist x mu) (alpha self))))
      (div (add (alpha self) one) (add one one)).

(** The same two lines for the whole batch: [expand_dims] pairs every
    sample with every centre. *)
Definition affinities (self : ClusteringLayer) (inputs : matrix A)
  : matrix A :=
  map (fun x => map (fun mu => affinity self x mu) (clusters self)) inputs.

(** <<
    q = 1.0 / (1.0 + (K.sum(K.square(K.expand_dims(inputs, axis=1)
                                    - self.clusters), axis=2) / self.alpha))
    q **= (self.alpha + 1.0) / 2.0
    q = K.transpose(K.transpose(q) / K.sum(q, axis=1))
    >> *)
Definition call (self : ClusteringLayer) (inputs : matrix A) : matrix A :=
  normalize_rows (affinities self inputs).

End ClusteringLayer.

Arguments ClusteringLayer A : clear implicits.

(** *** The soft assignment as the specification words it *)


(** Sum of a list of reals, for statements. *)
Definition Rsum (l : list R) : R := fold_right Rplus 0%R l.


(** ** Clustering accuracy *)

Module Accuracy.

(** The contingency matrix, [np.int64] counts. *)
Abbreviation imatrix := (list (list Z)).

(** [np.zeros((d, d), dtype=np.int64)] *)
Definition zeros (d : nat) : imatrix := replicate d (replicate d 0%Z).

(** [w[i, j] += 1] *)
Definition incr (w : imatrix) (i j : nat) : imatrix :=
  alter (alter Z.succ j) i w.

(** [w[i, j]]; the indices read are always inside the matrix
    (see [labels_below_D] and [optimal_assignment]). *)
Definition entry (w : imatrix) (i j : nat) : Z :=
  nth j (nth i w []) 0%Z.

(** <<
    w = np.zeros((D, D), dtype=np.int64)
    for i in range(y_pred.size):
        w[y_pred[i], y_true[i]] += 1
    >> *)
Definition contingency (d : nat) (y_pred y_true : list nat) : imatrix :=
  fold_left (fun w ij => incr w ij.1 ij.2) (zip y_pred y_true) (zeros d).

(** [a.max()] of a non-empty array. *)
Definition zmax (l : list Z) : Z :=
  match l with
  | [] => 0%Z
  | x :: t => fold_left Z.max t x
  end.

(** [w.max() - w] *)
Definition cost_matrix (w : imatrix) : imatrix :=
  let top := zmax (concat w) in
  map (map (fun x => (top - x)%Z)) w.

(** [m[rows, cols].sum()], accumulated pair by pair as in
    <<
    s = 0
    for i, j in zip(ind[0], ind[1]):
        s += w[i, j]
    >> *)
Definition paired_sum (m : imatrix) (rows cols : list nat) : Z :=
  fold_left (fun s ij => (s + entry m ij.1 ij.2)%Z) (zip rows cols) 0%Z.

(** What [scipy.optimize.linear_sum_assignment] promises on a square
    [d] x [d] cost matrix: the row indices are [arange(d)], the column
    indices are a permutation of them, and no other permutation is
    cheaper. *)
Definition optimal_assignment
    (solver : imatrix -> list nat * list nat) : Prop :=
  forall (d : nat) (c : imatrix),
    length c = d -> Forall (fun row => length row = d) c ->
    (solver c).1 = seq 0 d /\
    (solver c).2 ≡ₚ seq 0 d /\
    forall sigma, sigma ≡ₚ seq 0 d ->
      (paired_sum c (solver c).1 (solver c).2
         <= paired_sum c (seq 0 d) sigma)%Z.

Section WithSolver.
(** [linear_assignment], imported from scipy. *)
Variable linear_assignment : imatrix -> list nat * list nat.

(** [acc_cluster(y_true, y_pred)].  [None] stands for the two ways the
    function raises: the failed [assert] on the sizes and [max()] of
    an empty array.  The quotient is kept as an exact fraction. *)
Definition acc_cluster (y_true y_pred : list nat) : option Q :=
  if decide (length y_pred = length y_true) then
    match y_pred with
    | [] => None
    | _ :: _ =>
        let D := Nat.max (max_list y_pred) (max_list y_true) + 1 in
        let w := contingency D y_pred y_true in
        let ind := linear_assignment (cost_matrix w) in
        let s := paired_sum w ind.1 ind.2 in
        Some (inject_Z s / inject_Z (Z.of_nat (length y_pred)))%Q
    end
  else None.
End WithSolver.

(** An exhaustive solver: the first cheapest among all permutations of
    the columns.  It meets [optimal_assignment] and can be run. *)
Definition cheapest (c : imatrix) (rows : list nat)
    (candidates : list (list nat)) (start : list nat) : list nat :=
  fold_left
    (fun best sigma =>
       if (paired_sum c rows sigma <? paired_sum c rows best)%Z
       then sigma else best)
    candidates start.

Definition exhaustive_assignment (c : imatrix) : list nat * list nat :=
  let rows := seq 0 (length c) in
  (rows, cheapest c rows (permutations rows) rows).

(** Sum of a list of integers, for statements. *)
Definition Zsum (l : list Z) : Z := fold_right Z.add 0%Z l.

(** A [d] x [d] matrix. *)
Definition square_matrix (d : nat) (w : imatrix) : Prop :=
  length w = d /\ Forall (fun row => length row = d) w.

(** An assignment given as the list of its columns, read as a function:
    the column assigned to row [a]. *)
Definition column_of (sigma : list nat) (a : nat) : nat := nth a sigma 0.

(** The transposition of [u] and [v]. *)
Definition swap (u v x : nat) : nat :=
  if decide (x = u) then v else if decide (x = v) then u else x.

(** Number of samples on which the relabelling [sigma] of the predicted
    cluster agrees with the true label. *)
Definition agreements (sigma : nat -> nat) (y_pred y_true : list nat)
  : nat :=
  length (filter (fun ab => sigma ab.1 = ab.2) (zip y_pred y_true)).

End Accuracy.

(** ** The training loop *)

Module Loop.

(** [index_array[index * batch_size : min((index + 1) * batch_size, n)]]
    with [index_array = np.arange(n)] *)
Definition batch_indices (n batch_size index : nat) : list nat :=
  let lo := index * batch_size in
  let hi := Nat.min ((index + 1) * batch_size) n in
  take (hi - lo) (drop lo (seq 0 n)).

(** The indices of the slice [[lo:hi]] of [np.arange(n)], for [hi <= n]. *)
Definition slice (lo hi : nat) : list nat := seq lo (hi - lo).

(** [index + 1 if (index + 1) * batch_size <= n else 0] *)
Definition next_index (n batch_size index : nat) : nat :=
  if (index + 1) * batch_size <=? n then index + 1 else 0.

(** The cursor after [t] iterations, from [index = 0]. *)
Fixpoint cursor (n batch_size t : nat) : nat :=
  match t with
  | O => 0
  | S t' => next_index n batch_size (cursor n batch_size t')
  end.

(** The index arrays drawn by the first [t] iterations. *)
Definition draws (n batch_size t : nat) : list (list nat) :=
  map (fun i => batch_indices n batch_size (cursor n batch_size i))
      (seq 0 t).

(** [a[idx]], raising ([None]) on an index out of range. *)
Definition gather {T : Type} (a : list T) (idx : list nat)
  : option (list T) :=
  mapM (fun i => a !! i) idx.

(** [np.sum(y_pred != y_pred_last)], for two arrays of one length, as
    they are in the script, where both label the rows of [X]. *)
Definition changed (y_pred y_pred_last : list nat) : nat :=
  length (filter (fun ab => ab.1 <> ab.2) (zip y_pred y_pred_last)).

(** [delta_label = np.sum(y_pred != y_pred_last) / y_pred.shape[0]], kept
    as an exact fraction; [None] is the NaN of an empty batch. *)
Definition delta_label (y_pred y_pred_last : list nat) : option Q :=
  match length y_pred with
  | O => None
  | S _ =>
      Some (inject_Z (Z.of_nat (changed y_pred y_pred_last))
            / inject_Z (Z.of_nat (length y_pred)))%Q
  end.

(** [delta_label < tol]; a NaN is below nothing. *)
Definition delta_below (tol : Q) (delta : option Q) : bool :=
  match delta with
  | Some d => negb (Qle_bool tol d)
  | None => false
  end.

(** How the loop is left. *)
Inductive outcome := CONVERGED | MAX_ITER_REACHED | RAISED.

Section WithModel.
Context {A : Type} `{Scalar A} `{Ordered A}.

(** [q.argmax(1)] for one row, as numpy returns it for a non-empty row
    without NaN: the position of the first largest entry.  On a row with
    a NaN numpy returns the position of the first NaN, and on an empty
    row it raises; what is proved of the value of [argmax] is proved
    over the reals and for rows that are not empty. *)
Definition argmax (v : vector A) : nat :=
  match v with
  | [] => 0
  | x :: t =>
      (fold_left
         (fun acc y =>
            let '(best, top, i) := acc in
            if ltb top y then (i, y, S i) else (best, top, S i))
         t (0, x, 1)).1.1
  end.

(** The Keras model, the data and the library calls of the script. *)
Variables (Model Sample Metric : Type).
Variable predict : Model -> list Sample -> matrix A.
Variable train_on_batch :
  Model -> list Sample -> matrix A -> Model * A.
Variable linear_assignment :
  Accuracy.imatrix -> list nat * list nat.
Variables nmi ari : list nat -> list nat -> Metric.
(** [np.round(loss, 10)] *)
Variable round_loss : A -> A.

Variable X : list Sample.
Variable y : option (list nat).

Variables (batch_size update_interval : nat) (tol : Q).

(** The variables the loop reads and writes. *)
Record state := {
  model : Model;
  p : matrix A;
  y_pred_last : list nat;
  index : nat;
  loss : A
}.

(** What an iteration shows to the outside: the printed line of an
    evaluation tick, and the batch handed to [train_on_batch]. *)
Inductive event :=
| Report (ite : nat) (acc : Q) (nmi_v ari_v : Metric) (loss_v : A)
| Train (idx : list nat).

Inductive step :=
| Continue (st : state) (log : list event)
| Break (st : state) (log : list event)
| Raise.

(** The body of [if ite % update_interval == 0:].  The metrics are
    reported as computed, before they are rounded for printing. *)
Definition tick (ite : nat) (st : state) : step :=
  let q := predict (model st) X in
  let p' := target_distribution q in
  let y_pred := map argmax q in
  let report :=
    match y with
    | Some labels =>
        match Accuracy.acc_cluster linear_assignment labels y_pred with
        | Some acc =>
            let loss' := round_loss (loss st) in
            Some (loss',
                  [Report ite acc (nmi labels y_pred) (ari labels y_pred)
                     loss'])
        | None => None
        end
    | None => Some (loss st, [])
    end in
  match report with
  | None => Raise
  | Some (loss', log) =>
      let below := delta_below tol (delta_label y_pred (y_pred_last st)) in
      let st' := {| model := model st; p := p'; y_pred_last := y_pred;
                    index := index st; loss := loss' |} in
      if (0 <? ite) && below then Break st' log else Continue st' log
  end.

(** The three lines after the tick: draw the batch, train on it,
    move the cursor. *)
Definition train (st : state) (log : list event) : step :=
  let n := length X in
  let idx := batch_indices n batch_size (index st) in
  match gather X idx, gather (p st) idx with
  | Some xs, Some ps =>
      let '(m', l') := train_on_batch (model st) xs ps in
      Continue {| model := m'; p := p st; y_pred_last := y_pred_last st;
                  index := next_index n batch_size (index st);
                  loss := l' |}
               (log ++ [Train idx])
  | _, _ => Raise
  end.

(** One pass through the body of the [for] loop. *)
Definition iteration (ite : nat) (st : state) : step :=
  match update_interval with
  | O => Raise
  | S _ =>
      if ite mod update_interval =? 0 then
        match tick ite st with
        | Continue st' log => train st' log
        | other => other
        end
      else train st []
  end.

(** [for ite in range(int(maxiter)): ...] *)
Fixpoint loop (ites : list nat) (st : state) (log : list event)
  : outcome * state * list event :=
  match ites with
  | [] => (MAX_ITER_REACHED, st, log)
  | ite :: rest =>
      match iteration ite st with
      | Continue st' ev => loop rest st' (log ++ ev)
      | Break st' ev => (CONVERGED, st', log ++ ev)
      | Raise => (RAISED, st, log)
      end
  end.

(** The loop from the state the script sets up: [loss = 0],
    [index = 0], the k-means labels as [y_pred_last]; [p] is first
    assigned by the tick of iteration 0. *)
Definition run (maxiter : nat) (m0 : Model) (kmeans_labels : list nat)
  : outcome * state * list event :=
  loop (seq 0 maxiter)
       {| model := m0; p := []; y_pred_last := kmeans_labels;
          index := 0; loss := zero |}
       [].

(** The batches trained on, in order. *)
Definition trained (log : list event) : list (list nat) :=
  omap (fun e => match e with Train idx => Some idx | _ => None end) log.

End WithModel.

Arguments model {A Model} _.
Arguments p {A Model} _.
Arguments y_pred_last {A Model} _.
Arguments index {A Model} _.
Arguments loss {A Model} _.
Arguments Report {A Metric} _ _ _ _ _.
Arguments Train {A Metric} _.
Arguments Continue {A Model Metric} _ _.
Arguments Break {A Model Metric} _ _.
Arguments Raise {A Model Metric}.
Arguments trained {A Metric} _.

(** The constants of the script. *)
Definition default_batch_size : nat := 128.
Definition default_update_interval : nat := 140.
Definition default_maxiter : nat := 80 * 100.
Definition default_tol : Q := (1 # 1000)%Q.

End Loop.

(** *** A small run

    A stand-in for the Keras model, to run the loop on: four samples,
    one cluster, a [predict] that is sure of it and a [train_on_batch]
    that learns nothing. *)

Module Toy.

Definition predict (m : unit) (X : list nat) : matrix F32.f32 :=
  map (fun _ => [F32.fone]) X.

Definition train_on_batch (m : unit) (xs : list nat) (ps : matrix F32.f32)
  : unit * F32.f32 :=
  (m, F32.pzero).

Definition metric (y_true y_pred : list nat) : unit := tt.

Definition X : list nat := [0; 1; 2; 3].

Definition run (batch_size maxiter : nat) :=
  Loop.run unit nat unit predict train_on_batch
    Accuracy.exhaustive_assignment metric metric (fun l => l) X
    (Some [0; 0; 0; 0])
    batch_size Loop.default_update_interval Loop.default_tol
    maxiter tt [0; 0; 0; 0].

End Toy.

(** *** The small run, step by step *)

Module ToyStep.
Import Loop.

(** The state the script enters the loop with. *)
Definition start : state (A:=F32.f32) unit :=
  {| model := tt; p := []; y_pred_last := [0; 0; 0; 0];
     index := 0; loss := F32.pzero |}.

(** One pass through the body of the loop, with a batch size of 2. *)
Definition iteration (ite : nat) (st : state (A:=F32.f32) unit) :=
  Loop.iteration unit nat unit Toy.predict Toy.train_on_batch
    Accuracy.exhaustive_assignment Toy.metric Toy.metric (fun l => l)
    Toy.X (Some [0; 0; 0; 0]) 2 default_update_interval default_tol ite st.

End ToyStep.

(** ** The layer in binary32

    The power of the backend is not among the operations of [F32].  The
    layer is read in binary32 with any power that has the two special
    values IEEE 754 fixes for [pow]: [pow(+0, y) = +0] for [y > 0], and
    [pow(1, y) = 1]. *)

Module LayerF32.
Import F32.

Definition ieee_pow (fpow : Power f32) : Prop :=
  (forall y, SFltb pzero y = true -> fpow pzero y = pzero)
  /\ (forall y, fpow fone y = fone).



End LayerF32.

(** ** The life cycle of the clustering layer *)

Module LayerLife.

(** The Python values that appear in the keyword arguments and in the
    configuration of a layer. *)
#[local] Set Warnings "-register-all".
Inductive pyobj :=
| PyNone
| PyInt (n : Z)
| PyStr (s : string)
| PyTuple (elements : list pyobj).
#[local] Set Warnings "register-all".

(** A Python [dict] with string keys, as a mapping: the order of its keys
    is not kept. *)
Abbreviation pydict := (gmap string pyobj).

(** [d.items()] *)
Definition items (d : pydict) : list (string * pyobj) := map_to_list d.

(** [dict(pairs)]: the pairs are entered from left to right, a later
    pair replaces an earlier one with the same key. *)
Definition dict (pairs : list (string * pyobj)) : pydict :=
  fold_left (fun d kv => <[kv.1 := kv.2]> d) pairs ∅.

(** The first two lines of [__init__], on the keyword arguments that are
    then handed to the constructor of the base class:
    <<
    if 'input_shape' not in kwargs and 'input_dim' in kwargs:
        kwargs['input_shape'] = (kwargs.pop('input_dim'),)
    >> *)
Definition init_kwargs (kwargs : pydict) : pydict :=
  match kwargs !! "input_shape", kwargs !! "input_dim" with
  | None, Some input_dim =>
      <["input_shape" := PyTuple [input_dim]]> (delete "input_dim" kwargs)
  | _, _ => kwargs
  end.

(** A tensor shape: a tuple of dimensions, [None] for one that is not
    known. *)
Abbreviation shape := (list (option nat)).

Section WithScalar.
Context {A : Type} `{Scalar A} `{Power A}.

(** What [__init__] stores in the layer. *)
Record Unbuilt := {
  n_clusters : nat;
  initial_weights : option (list (matrix A));
  init_alpha : A
}.

(** [__init__(self, n_clusters, weights=None, alpha=1.0, **kwargs)] *)
Definition init (n : nat) (weights : option (list (matrix A)))
    (a : option A) : Unbuilt :=
  {| n_clusters := n; initial_weights := weights;
     init_alpha := default one a |}.

(** The two calls into the base class: [add_weight] gives a fresh array
    for a shape, [set_weights] replaces the one weight of this layer by
    the arrays of a list; either may raise. *)
Variable add_weight : shape -> option (matrix A).
Variable set_weights : matrix A -> list (matrix A) -> option (matrix A).

(** What is assumed of them: a weight has the shape it was asked with,
    which is then fully known, and [set_weights] takes exactly one array,
    of the shape of the weight it replaces. *)
Definition base_layer_contract : Prop :=
  (forall s w, add_weight s = Some w ->
     exists n d, s = [Some n; Some d] /\ shaped n d w)
  /\ (forall cur ws w, set_weights cur ws = Some w ->
        ws = [w] /\ forall n d, shaped n d cur -> shaped n d w).

(** <<
    def build(self, input_shape):
        assert len(input_shape) == 2
        input_dim = input_shape[1]
        self.clusters = self.add_weight(shape=(self.n_clusters, input_dim),
                                        ...)
        if self.initial_weights is not None:
            self.set_weights(self.initial_weights)
            del self.initial_weights
        self.built = True
    >>
    The result is the built layer, [None] when something raised. *)
Definition build (self : Unbuilt) (input_shape : shape)
  : option (ClusteringLayer A) :=
  match input_shape with
  | [_; input_dim] =>
      match add_weight [Some (n_clusters self); input_dim] with
      | Some fresh =>
          match initial_weights self with
          | None => Some {| alpha := init_alpha self; clusters := fresh |}
          | Some weights =>
              match set_weights fresh weights with
              | Some w => Some {| alpha := init_alpha self; clusters := w |}
              | None => None
              end
          end
      | None => None
      end
  | _ => None
  end.

(** <<
    def compute_output_shape(self, input_shape):
        assert input_shape and len(input_shape) == 2
        return input_shape[0], self.n_clusters
    >> *)
Definition compute_output_shape (self : Unbuilt) (input_shape : shape)
  : option shape :=
  match input_shape with
  | [batch; _] => Some [batch; Some (n_clusters self)]
  | _ => None
  end.

(** <<
    def get_config(self):
        config = {'n_clusters': self.n_clusters}
        base_config = super(ClusteringLayer, self).get_config()
        return dict(list(base_config.items()) + list(config.items()))
    >>
    [base_config] is what the base class returns. *)
Definition get_config (self : Unbuilt) (base_config : pydict) : pydict :=
  let config := dict [("n_clusters", PyInt (Z.of_nat (n_clusters self)))] in
  dict (items base_config ++ items config).

End WithScalar.

Arguments Unbuilt A : clear implicits.

(** *** A stand-in for the base class

    Weights that start at zero, and a [set_weights] that checks the
    number and the shape of the arrays it is given. *)

Section StandIn.
Context {A : Type} `{Scalar A}.

Definition zeros_weight (s : shape) : option (matrix A) :=
  match s with
  | [Some n; Some d] => Some (replicate n (replicate d zero))
  | _ => None
  end.

Definition same_shape (cur w : matrix A) : bool :=
  bool_decide (map length w = map length cur).

Definition checked_set_weights (cur : matrix A) (ws : list (matrix A))
  : option (matrix A) :=
  match ws with
  | [w] => if same_shape cur w then Some w else None
  | _ => None
  end.

End StandIn.

End LayerLife.

(** * Properties *)

(** ** Tensors, in any number system *)

Section TensorFacts.
Context {A : Type} `{Scalar A}.
Implicit Types (m q : matrix A) (v row : vector A).

Lemma shaped_rows n k m row : shaped n k m -> In row m -> length row = k.
Proof.
  intros [_ Hrows] Hin. rewrite Forall_forall in Hrows.
  by apply Hrows, list_elem_of_In.
Qed.

Lemma shaped_ncols n k m : shaped n k m -> 0 < n -> ncols m = k.
Proof.
  intros [Hn Hrows] Hpos. unfold ncols.
  destruct m as [|row m]; simpl in *; [lia|].
  by inversion Hrows.
Qed.

Lemma shaped_map n k k' (f : vector A -> vector A) m :
  shaped n k m ->
  (forall row, length row = k -> length (f row) = k') ->
  shaped n k' (map f m).
Proof.
  intros [Hn Hrows] Hf. split; [by rewrite length_map|].
  apply Forall_map. eapply Forall_impl; [exact Hrows|]. exact Hf.
Qed.

Lemma nth_map_seq {B : Type} (f : nat -> B) k j (d : B) :
  j < k -> nth j (map f (seq 0 k)) d = f j.
Proof.
  intros Hj. rewrite (nth_indep _ _ (f 0))
    by (by rewrite length_map, length_seq).
  by rewrite (map_nth f), seq_nth.
Qed.

Lemma nth_map_in {B C : Type} (f : B -> C) (l : list B) i (d : C) (d' : B) :
  i < length l -> nth i (map f l) d = f (nth i l d').
Proof.
  intros Hi. rewrite (nth_indep _ _ (f d')) by (by rewrite length_map).
  apply map_nth.
Qed.

Lemma row_as_map k row :
  length row = k -> row = map (fun j => nth j row zero) (seq 0 k).
Proof.
  intros <-. apply (nth_ext _ _ zero zero).
  - by rewrite length_map, length_seq.
  - intros j Hj. by rewrite nth_map_seq.
Qed.

Lemma length_transpose k m : length (transpose k m) = k.
Proof. unfold transpose. by rewrite length_map, length_seq. Qed.

Lemma nth_transpose k m j :
  j < k ->
  nth j (transpose k m) [] = map (fun row => nth j row zero) m.
Proof.
  intros Hj. unfold transpose. by rewrite nth_map_seq.
Qed.

Lemma sum_axis0_cols n k m :
  shaped n k m -> 0 < n -> sum_axis0 m = map (colsum m) (seq 0 k).
Proof.
  intros Hm Hn. unfold sum_axis0, transpose, colsum.
  rewrite (shaped_ncols n k) by done. by rewrite map_map.
Qed.

Lemma nth_zip_with (f : A -> A -> A) v1 v2 i :
  i < length v1 -> i < length v2 ->
  nth i (zip_with f v1 v2) zero = f (nth i v1 zero) (nth i v2 zero).
Proof.
  revert v2 i. induction v1 as [|a v1 IH]; intros [|b v2] [|i]; simpl;
    intros; try lia; [done|]. apply IH; lia.
Qed.

(** Dividing every row by its sum, without the two transpositions. *)
Lemma normalize_rows_rowwise n k m :
  shaped n k m ->
  normalize_rows m
  = map (fun row => map (fun x => div x (vsum row)) row) m.
Proof.
  intros Hm. destruct (decide (n = 0)) as [-> | Hn].
  { destruct Hm as [Hlen _]. by destruct m. }
  pose proof Hm as [Hlen Hrows]. rewrite Forall_forall in Hrows.
  unfold normalize_rows. rewrite (shaped_ncols n k) by (done || lia).
  rewrite Hlen.
  apply (nth_ext _ _ [] []).
  { by rewrite length_transpose, length_map. }
  rewrite length_transpose. intros i Hi.
  rewrite nth_transpose by done.
  assert (Hrow : In (nth i m []) m) by (apply nth_In; lia).
  assert (Hk : length (nth i m []) = k)
    by (apply Hrows, list_elem_of_In, Hrow).
  rewrite (nth_map_in _ _ _ _ []) by lia.
  remember (nth i m []) as r eqn:Hr.
  transitivity (map (fun x => div x (vsum r))
                    (map (fun j => nth j r zero) (seq 0 k)));
    [| by rewrite <- (row_as_map k r)].
  unfold div_rows, transpose. rewrite !map_map.
  apply map_ext_in. intros j Hj. apply in_seq in Hj.
  rewrite nth_zip_with.
  - f_equal.
    + rewrite (nth_map_in _ _ _ _ []) by lia. by subst r.
    + unfold sum_axis1. rewrite (nth_map_in _ _ _ _ []) by lia.
      by subst r.
  - rewrite length_map. lia.
  - unfold sum_axis1. rewrite length_map. lia.
Qed.

Lemma normalize_rows_shaped n k m :
  shaped n k m -> shaped n k (normalize_rows m).
Proof.
  intros Hm. rewrite (normalize_rows_rowwise n k) by done.
  apply (shaped_map n k k); [done|]. intros row Hrow.
  by rewrite length_map.
Qed.

Lemma length_normalize_rows m : length (normalize_rows m) = length m.
Proof. apply length_transpose. Qed.

Lemma sharpen_weight_rowwise n k q :
  shaped n k q ->
  sharpen_weight q = map (weight_row (colsum q) k) q.
Proof.
  intros Hq. destruct (decide (n = 0)) as [-> | Hn].
  { destruct Hq as [Hlen _]. by destruct q. }
  unfold sharpen_weight, div_rows, square.
  rewrite (sum_axis0_cols n k) by (done || lia). rewrite map_map.
  apply map_ext_in. intros row Hrow.
  rewrite (row_as_map k row) at 1 by (by eapply shaped_rows).
  rewrite map_map, zip_with_fmap_l, zip_with_fmap_r, zip_with_diag.
  done.
Qed.

Lemma sharpen_weight_shaped n k q :
  shaped n k q -> shaped n k (sharpen_weight q).
Proof.
  intros Hq. rewrite (sharpen_weight_rowwise n k) by done.
  apply (shaped_map n k k); [done|]. intros row _.
  unfold weight_row. by rewrite length_map, length_seq.
Qed.

(** [target_distribution], row by row. *)
Lemma target_distribution_rowwise n k q :
  shaped n k q ->
  target_distribution q
  = map (fun row =>
           let w := weight_row (colsum q) k row in
           map (fun x => div x (vsum w)) w) q.
Proof.
  intros Hq. unfold target_distribution. cbv zeta.
  rewrite (normalize_rows_rowwise n k) by (by apply sharpen_weight_shaped).
  rewrite (sharpen_weight_rowwise n k) by done.
  by rewrite map_map.
Qed.

Lemma target_distribution_shaped n k q :
  shaped n k q -> shaped n k (target_distribution q).
Proof.
  intros Hq. apply normalize_rows_shaped. by apply sharpen_weight_shaped.
Qed.

Lemma length_target_distribution q :
  length (target_distribution q) = length q.
Proof.
  unfold target_distribution. cbv zeta. rewrite length_normalize_rows.
  unfold sharpen_weight, div_rows, square. by rewrite !length_map.
Qed.

End TensorFacts.


(** ** The minibatch cursor *)

Module CursorFacts.
Import Loop.

(** A slice of [arange(n)] is a run of consecutive indices. *)
Lemma batch_indices_seq n b i :
  batch_indices n b i
  = seq (i * b) (Nat.min ((i + 1) * b) n - i * b).
Proof.
  unfold batch_indices. rewrite drop_seq, take_seq. simpl. f_equal. lia.
Qed.

(** Below the end of the data a slice is full, at the end it is what is
    left. *)
Lemma batch_indices_full n b i :
  (i + 1) * b <= n -> batch_indices n b i = seq (i * b) b.
Proof. intros Hle. rewrite batch_indices_seq. f_equal. lia. Qed.

Lemma batch_indices_last n b i :
  i * b <= n -> n <= (i + 1) * b ->
  batch_indices n b i = seq (i * b) (n - i * b).
Proof. intros Hlo Hhi. rewrite batch_indices_seq. f_equal. lia. Qed.

Lemma next_index_advance n b i :
  (i + 1) * b <= n -> next_index n b i = i + 1.
Proof.
  intros Hle. unfold next_index.
  destruct (Nat.leb_spec ((i + 1) * b) n); [done | lia].
Qed.

Lemma next_index_wrap n b i :
  n < (i + 1) * b -> next_index n b i = 0.
Proof.
  intros Hlt. unfold next_index.
  destruct (Nat.leb_spec ((i + 1) * b) n); [lia | done].
Qed.

(** The cursor counts modulo [n / b + 1]: it visits [0 .. n / b]. *)
Lemma cursor_closed_form n b t :
  0 < b -> cursor n b t = t mod (n / b + 1).
Proof.
  intros Hb. induction t as [|t IH]; simpl.
  - symmetry. apply Nat.Div0.mod_0_l.
  - rewrite IH. clear IH.
    pose proof (Nat.div_mod_eq n b) as Hn.
    pose proof (Nat.mod_upper_bound n b ltac:(lia)) as Hnb.
    remember (n / b) as q eqn:Hq. clear Hq.
    remember (q + 1) as k eqn:Hk.
    pose proof (Nat.mod_upper_bound t k ltac:(lia)) as Hup.
    pose proof (Nat.div_mod_eq t k) as Ht.
    remember (t mod k) as c eqn:Hc. clear Hc.
    remember (t / k) as d eqn:Hd. clear Hd.
    destruct (decide (c + 1 < k)) as [Hlt | Hge].
    + rewrite next_index_advance by nia.
      apply (Nat.mod_unique _ _ d); lia.
    + rewrite next_index_wrap by nia.
      apply (Nat.mod_unique _ _ (d + 1)); lia.
Qed.

Lemma batch_indices_slice n b i :
  batch_indices n b i = slice (i * b) (Nat.min ((i + 1) * b) n).
Proof. apply batch_indices_seq. Qed.

Lemma batch_indices_bound n b i :
  Forall (fun j => j < n) (batch_indices n b i).
Proof.
  rewrite batch_indices_seq. apply Forall_seq. intros j Hj. lia.
Qed.

Lemma gather_is_Some {T : Type} (a : list T) idx :
  Forall (fun i => i < length a) idx -> is_Some (gather a idx).
Proof.
  intros Hidx. apply mapM_is_Some_2.
  eapply Forall_impl; [exact Hidx|]. intros i Hi. by apply lookup_lt_is_Some.
Qed.

Lemma draws_length n b t : length (draws n b t) = t.
Proof. unfold draws. by rewrite length_map, length_seq. Qed.

Lemma draws_lookup n b t i :
  i < t -> draws n b t !! i = Some (batch_indices n b (cursor n b i)).
Proof.
  intros Hi. unfold draws.
  by rewrite list_lookup_fmap, lookup_seq_lt.
Qed.

Lemma draws_snoc n b t :
  draws n b (S t) = draws n b t ++ [batch_indices n b (cursor n b t)].
Proof. unfold draws. by rewrite seq_S, map_app. Qed.

End CursorFacts.

(** ** The training loop *)

Module LoopFacts.
Import Loop CursorFacts.

Section WithModel.
Context {A : Type} `{Scalar A} `{Ordered A}.
Variables (Model Sample Metric : Type).
Variable predict : Model -> list Sample -> matrix A.
Variable train_on_batch :
  Model -> list Sample -> matrix A -> Model * A.
Variable linear_assignment :
  Accuracy.imatrix -> list nat * list nat.
Variables nmi ari : list nat -> list nat -> Metric.
Variable round_loss : A -> A.
Variable X : list Sample.
Variable y : option (list nat).
Variables (batch_size update_interval : nat) (tol : Q).

Local Abbreviation tick :=
  (tick Model Sample Metric predict linear_assignment nmi ari round_loss
     X y tol).
Local Abbreviation train :=
  (train Model Sample Metric train_on_batch X batch_size).
Local Abbreviation iteration :=
  (iteration Model Sample Metric predict train_on_batch linear_assignment
     nmi ari round_loss X y batch_size update_interval tol).
Local Abbreviation loop :=
  (loop Model Sample Metric predict train_on_batch linear_assignment
     nmi ari round_loss X y batch_size update_interval tol).
Local Abbreviation run :=
  (run Model Sample Metric predict train_on_batch linear_assignment
     nmi ari round_loss X y batch_size update_interval tol).
Local Abbreviation state := (state (A:=A) Model).
Local Abbreviation event := (event (A:=A) Metric).

(** A tick at iteration 0 never leaves the loop. *)
Lemma tick_zero_no_break (st st' : state) (log : list event) :
  tick 0 st <> Break st' log.
Proof.
  unfold Loop.tick. cbv zeta.
  destruct y as [labels|]; [destruct (Accuracy.acc_cluster _ _ _)|];
    simpl; congruence.
Qed.

(** A tick leaves the cursor alone and trains on nothing. *)
Lemma tick_continue ite (st st' : state) (log : list event) :
  tick ite st = Continue st' log ->
  index st' = index st /\ model st' = model st
  /\ trained log = []
  /\ p st' = target_distribution (predict (model st) X).
Proof.
  unfold Loop.tick. cbv zeta.
  destruct y as [labels|]; [destruct (Accuracy.acc_cluster _ _ _)|];
    simpl; try congruence;
    destruct (_ && _); intros [= <- <-]; simpl; auto.
Qed.

(** The training step draws the slice under the cursor and moves the
    cursor on. *)
Lemma train_continue (st st' : state) (log log' : list event) :
  train st log = Continue st' log' ->
  index st' = next_index (length X) batch_size (index st)
  /\ log' = log ++ [Train
                      (batch_indices (length X) batch_size (index st))]
  /\ p st' = p st.
Proof.
  unfold Loop.train. cbv zeta.
  destruct (gather X _); [|congruence].
  destruct (gather (p st) _); [|congruence].
  destruct (train_on_batch _ _ _) as [m' l'].
  intros [= <- <-]; simpl; auto.
Qed.

Lemma train_no_break (st st' : state) (log log' : list event) :
  train st log <> Break st' log'.
Proof.
  unfold Loop.train. cbv zeta.
  destruct (gather X _); [|congruence].
  destruct (gather (p st) _); [|congruence].
  destruct (train_on_batch _ _ _) as [m' l']. congruence.
Qed.

Lemma iteration_continue ite (st st' : state) (log : list event) :
  iteration ite st = Continue st' log ->
  index st' = next_index (length X) batch_size (index st)
  /\ trained log
     = [batch_indices (length X) batch_size (index st)].
Proof.
  unfold Loop.iteration.
  destruct update_interval as [|u]; [congruence|].
  destruct (_ =? 0).
  - destruct (tick ite st) as [st1 log1| |] eqn:Htick; try congruence.
    apply tick_continue in Htick as (Hidx & _ & Hlog & _).
    intros (Hi & -> & _)%train_continue.
    rewrite Hi, Hidx. split; [done|].
    unfold trained in *. by rewrite omap_app, Hlog.
  - intros (Hi & -> & _)%train_continue. by split.
Qed.

Lemma iteration_zero_no_break (st st' : state) (log : list event) :
  iteration 0 st <> Break st' log.
Proof.
  unfold Loop.iteration.
  destruct update_interval as [|u]; [congruence|].
  destruct (_ =? 0).
  - destruct (tick 0 st) as [st1 log1|st1 log1|] eqn:Htick;
      try congruence.
    + apply train_no_break.
    + by apply tick_zero_no_break in Htick.
  - apply train_no_break.
Qed.

(** The cursor and the batches of a loop that runs to the end. *)
Lemma loop_exhausted ites s (st st' : state) (log log' : list event) :
  index st = cursor (length X) batch_size s ->
  loop ites st log = (MAX_ITER_REACHED, st', log') ->
  index st' = cursor (length X) batch_size (s + length ites)
  /\ trained log'
     = trained log
       ++ map (fun i => batch_indices (length X) batch_size
                          (cursor (length X) batch_size i))
              (seq s (length ites)).
Proof.
  revert s st log.
  induction ites as [|ite rest IH]; intros s st log Hs; simpl.
  - intros [= <- <-]. by rewrite app_nil_r, Nat.add_0_r.
  - destruct (iteration ite st) as [st1 ev| |] eqn:Hit; try congruence.
    apply iteration_continue in Hit as [Hidx Hev].
    intros [Hi Hl]%(IH (S s)).
    + rewrite Hi, Hl. split; [f_equal; lia|].
      unfold trained in *. rewrite omap_app, Hev, Hs, <- app_assoc. done.
    + rewrite Hidx, Hs. done.
Qed.

(** A run that is not cut short trains on [draws], one batch per
    iteration. *)
Lemma run_exhausted maxiter m0 labels (st' : state) (log' : list event) :
  run maxiter m0 labels = (MAX_ITER_REACHED, st', log') ->
  index st' = cursor (length X) batch_size maxiter
  /\ trained log' = draws (length X) batch_size maxiter.
Proof.
  unfold Loop.run. intros Hrun.
  apply (loop_exhausted _ 0) in Hrun as [Hi Hl]; [|done].
  rewrite length_seq in Hi, Hl. by split.
Qed.

(** With [maxiter = 1] the only iteration is iteration 0, and it goes
    through whenever nothing raises. *)
Lemma iteration_zero_continue (st : state) :
  0 < update_interval ->
  length (predict (model st) X) = length X ->
  (forall l, y = Some l ->
     is_Some (Accuracy.acc_cluster linear_assignment l
                (map argmax (predict (model st) X)))) ->
  exists st' log, iteration 0 st = Continue st' log.
Proof.
  intros Hu Hshape Hacc. unfold Loop.iteration.
  destruct update_interval as [|u]; [lia|].
  rewrite Nat.Div0.mod_0_l. simpl "=?".
  assert (exists st1 log1, tick 0 st = Continue st1 log1
            /\ p st1 = target_distribution (predict (model st) X))
    as (st1 & log1 & -> & Hp).
  { unfold Loop.tick. cbv zeta.
    destruct y as [l|].
    - destruct (Hacc l eq_refl) as [acc ->]. simpl. eauto.
    - simpl. eauto. }
  unfold Loop.train. cbv zeta.
  destruct (gather_is_Some X (batch_indices (length X) batch_size (index st1)))
    as [xs ->]; [apply batch_indices_bound|].
  destruct (gather_is_Some (p st1)
              (batch_indices (length X) batch_size (index st1)))
    as [ps ->].
  { rewrite Hp, length_target_distribution, Hshape.
    apply batch_indices_bound. }
  destruct (train_on_batch _ _ _) as [m' l']. eauto.
Qed.

(** C5. A run of the training loop with [maxiter = 1] never ends in
    CONVERGED: the stop test asks for [ite > 0] and the only iteration is
    iteration 0.  When nothing raises (the update interval is positive,
    [predict] returns one row per sample and the accuracy can be
    computed), the run ends in MAX_ITER_REACHED after training on exactly
    one batch, the first slice. *)
Theorem maxiter_one_max_iter_reached m0 labels :
  let r := run 1 m0 labels in
  r.1.1 <> CONVERGED
  /\ (0 < update_interval ->
      length (predict m0 X) = length X ->
      (forall l, y = Some l ->
         is_Some (Accuracy.acc_cluster linear_assignment l
                    (map argmax (predict m0 X)))) ->
      r.1.1 = MAX_ITER_REACHED
      /\ trained r.2 = [batch_indices (length X) batch_size 0]).
Proof.
  cbv zeta. unfold Loop.run. simpl seq. simpl Loop.loop.
  set (st0 := {| model := m0; p := []; y_pred_last := labels;
                 index := 0; loss := zero |}).
  split.
  - destruct (iteration 0 st0) as [st1 ev|st1 ev|] eqn:Hit; simpl;
      try congruence.
    by apply iteration_zero_no_break in Hit.
  - intros Hu Hshape Hacc.
    destruct (iteration_zero_continue st0 Hu Hshape Hacc)
      as (st1 & ev & Hit).
    rewrite Hit. simpl. split; [done|].
    by apply iteration_continue in Hit as [_ ->].
Qed.

(** C6. With 300 samples and batches of 128 the cursor draws the slices
    [0:128], [128:256], [256:300] and then [0:128] again.  In general a
    draw is the slice [index * b : min((index + 1) * b, n)] of the fixed
    ordering [arange(n)], the cursor moves on by one when
    [(index + 1) * b <= n] and goes back to 0 otherwise, so that it counts
    modulo [n / b + 1]; and a run of the loop that is not cut short
    trains on exactly these draws, one per iteration. *)
Theorem minibatch_cursor_slices :
  draws 300 128 4 = [slice 0 128; slice 128 256; slice 256 300; slice 0 128]
  /\ (forall n b i,
        batch_indices n b i = slice (i * b) (Nat.min ((i + 1) * b) n))
  /\ (forall n b i, (i + 1) * b <= n -> next_index n b i = i + 1)
  /\ (forall n b i, n < (i + 1) * b -> next_index n b i = 0)
  /\ (forall n b t, 0 < b -> cursor n b t = t mod (n / b + 1))
  /\ (forall maxiter m0 labels (st' : state) (log' : list event),
        run maxiter m0 labels = (MAX_ITER_REACHED, st', log') ->
        index st' = cursor (length X) batch_size maxiter
        /\ trained log' = draws (length X) batch_size maxiter).
Proof.
  split; [by vm_compute|].
  split; [apply batch_indices_slice|].
  split; [apply next_index_advance|].
  split; [apply next_index_wrap|].
  split; [apply cursor_closed_form|].
  apply run_exhausted.
Qed.

(** C9. When the number of samples is a positive multiple [m * b] of the
    batch size, the draws [0 .. m - 1] are the [m] full slices, the last
    of them [n - b : n]; the cursor then moves on to [m = n / b] instead
    of going back to 0, the next draw is the empty slice [n:n], and only
    then the cursor is 0 again.  So one draw in every [m + 1] is empty,
    and a run that is not cut short calls [train_on_batch] with an empty
    batch at iteration [m]. *)
Theorem multiple_of_batch_size_draws_empty_slice n b m :
  0 < b -> 0 < m -> n = m * b ->
  (forall t, t < m ->
     cursor n b t = t /\ batch_indices n b t = slice (t * b) ((t + 1) * b))
  /\ batch_indices n b (cursor n b (m - 1)) = slice (n - b) n
  /\ cursor n b m = n / b
  /\ batch_indices n b (cursor n b m) = slice n n
  /\ slice n n = []
  /\ cursor n b (m + 1) = 0
  /\ (forall t, batch_indices n b (cursor n b t) = [] <-> t mod (m + 1) = m)
  /\ (forall maxiter m0 labels (st' : state) (log' : list event),
        length X = n -> batch_size = b -> m < maxiter ->
        run maxiter m0 labels = (MAX_ITER_REACHED, st', log') ->
        trained log' !! m = Some []).
Proof.
  intros Hb Hm ->.
  assert (Hdiv : m * b / b = m) by (apply Nat.div_mul; lia).
  assert (Hcur : forall t, cursor (m * b) b t = t mod (m + 1)).
  { intros t. rewrite cursor_closed_form by done. by rewrite Hdiv. }
  assert (Hsmall : forall t, t <= m -> cursor (m * b) b t = t).
  { intros t Ht. rewrite Hcur. apply Nat.mod_small. lia. }
  assert (Hempty : forall t,
            batch_indices (m * b) b (cursor (m * b) b t) = []
            <-> t mod (m + 1) = m).
  { intros t. rewrite Hcur, batch_indices_seq.
    pose proof (Nat.mod_upper_bound t (m + 1) ltac:(lia)) as Hup.
    remember (t mod (m + 1)) as c eqn:Hc. clear Hc. split.
    - intros Hnil. apply (f_equal length) in Hnil.
      rewrite length_seq in Hnil. simpl in Hnil.
      destruct (decide (c = m)) as [|Hne]; [done|]. exfalso.
      assert ((c + 1) * b <= m * b) by (apply Nat.mul_le_mono_r; lia).
      nia.
    - intros ->. replace (_ - _) with 0 by nia. done. }
  split.
  { intros t Ht. rewrite Hsmall by lia. split; [done|].
    rewrite batch_indices_slice. f_equal.
    assert ((t + 1) * b <= m * b) by (apply Nat.mul_le_mono_r; lia). lia. }
  split.
  { rewrite Hsmall by lia. rewrite batch_indices_slice. unfold slice.
    f_equal; nia. }
  split; [rewrite Hdiv; apply Hsmall; lia|].
  split.
  { rewrite Hsmall by lia. rewrite batch_indices_slice. unfold slice.
    f_equal; nia. }
  split; [unfold slice; by rewrite Nat.sub_diag|].
  split.
  { rewrite Hcur. apply Nat.Div0.mod_same. }
  split; [exact Hempty|].
  intros maxiter m0 labels st' log' HX HB Hlt Hrun.
  apply run_exhausted in Hrun as [_ ->].
  rewrite draws_lookup by done. f_equal. rewrite HX, HB.
  apply Hempty. apply Nat.mod_small. lia.
Qed.

End WithModel.

End LoopFacts.

(** ** The sharpener in binary32: an unused cluster *)

Module SharpenerF32.
Import F32.

Lemma fadd_nan_r x : fadd x nan = nan.
Proof. by destruct x. Qed.

Lemma fdiv_nan_r x : fdiv x nan = nan.
Proof. by destruct x. Qed.

Lemma fadd_zero x y :
  is_zero x = true -> is_zero y = true -> is_zero (fadd x y) = true.
Proof. by destruct x as [[]| | |], y as [[]| | |]. Qed.

Lemma fmul_zero x : is_zero x = true -> is_zero (fmul x x) = true.
Proof. by destruct x. Qed.

Lemma fdiv_zero_zero x y :
  is_zero x = true -> is_zero y = true -> fdiv x y = nan.
Proof. by destruct x, y. Qed.

Lemma fold_fadd_nan l : fold_left fadd l nan = nan.
Proof. induction l as [|x l IH]; simpl; [done|exact IH]. Qed.

(** A sum with a NaN term is NaN. *)
Lemma fold_fadd_In_nan l acc : In nan l -> fold_left fadd l acc = nan.
Proof.
  revert acc. induction l as [|x l IH]; intros acc; simpl; [done|].
  intros [-> | Hin].
  - rewrite fadd_nan_r. apply fold_fadd_nan.
  - by apply IH.
Qed.

Lemma vsum_In_nan (v : vector f32) : In nan v -> vsum v = nan.
Proof. apply fold_fadd_In_nan. Qed.

Lemma fold_fadd_zero l acc :
  is_zero acc = true -> Forall (fun x => is_zero x = true) l ->
  is_zero (fold_left fadd l acc) = true.
Proof.
  revert acc. induction l as [|x l IH]; intros acc Hacc Hl; simpl; [done|].
  inversion Hl; subst. apply IH; [by apply fadd_zero | done].
Qed.

(** A sum of zeros is a zero. *)
Lemma vsum_zero (v : vector f32) :
  Forall (fun x => is_zero x = true) v -> is_zero (vsum v) = true.
Proof. by apply fold_fadd_zero. Qed.

Lemma map_constant {B C : Type} (f : B -> C) (c : C) (l : list B) :
  (forall x, In x l -> f x = c) -> map f l = replicate (length l) c.
Proof.
  induction l as [|x l IH]; simpl; intros Hf; [done|].
  rewrite Hf by auto. f_equal. apply IH. auto.
Qed.

(** The weights of a row in a matrix whose column [j] is all zero: the
    entry of column [j] is [0 / 0]. *)
Lemma weight_row_zero_column k (q : matrix f32) j row :
  j < k ->
  Forall (fun r => is_zero (nth j r pzero) = true) q ->
  In row q ->
  nth j (weight_row (colsum q) k row) pzero = nan.
Proof.
  intros Hj Hcol Hrow. unfold weight_row.
  rewrite (nth_map_seq _ k j pzero Hj).
  apply fdiv_zero_zero.
  - apply fmul_zero. rewrite Forall_forall in Hcol.
    by apply Hcol, list_elem_of_In.
  - unfold colsum. apply vsum_zero. by apply Forall_map.
Qed.

(** C1, as the code has it.  When every entry of some column [j] of [q]
    is zero (an unused cluster), [target_distribution q] raises nothing:
    the weight of column [j] is [0 / 0], that is NaN, in every row, the
    row sums of the weights are therefore NaN, and every entry of the
    result is NaN. *)
Theorem zero_column_makes_every_entry_nan n k (q : matrix f32) j :
  shaped n k q -> j < k ->
  Forall (fun row => is_zero (nth j row pzero) = true) q ->
  Forall (fun row => nth j row pzero = nan) (sharpen_weight q)
  /\ Forall (fun row => vsum row = nan) (sharpen_weight q)
  /\ target_distribution q = replicate n (replicate k nan).
Proof.
  intros Hq Hj Hcol.
  assert (Hw : forall row, In row q ->
            In nan (weight_row (colsum q) k row)).
  { intros row Hrow.
    rewrite <- (weight_row_zero_column k q j row Hj Hcol Hrow).
    apply nth_In. unfold weight_row. by rewrite length_map, length_seq. }
  rewrite (sharpen_weight_rowwise n k q Hq).
  rewrite (target_distribution_rowwise n k q Hq).
  split; [|split].
  - apply Forall_map, Forall_forall. intros row Hrow%list_elem_of_In.
    simpl. by apply weight_row_zero_column.
  - apply Forall_map, Forall_forall. intros row Hrow%list_elem_of_In.
    simpl. by apply vsum_In_nan, Hw.
  - destruct Hq as [<- _]. apply map_constant. intros row Hrow.
    cbv zeta. rewrite (vsum_In_nan _ (Hw row Hrow)).
    rewrite (map_constant _ nan).
    + unfold weight_row. by rewrite length_map, length_seq.
    + intros x _. apply fdiv_nan_r.
Qed.

(** Two samples, two clusters, the second cluster unused. *)
Lemma zero_column_makes_every_entry_nan_witness :
  Forall (fun row => is_zero (nth 1 row pzero) = true)
    [[fone; pzero]; [fone; pzero]]
  /\ Forall (fun row => nth 1 row pzero = nan)
       (sharpen_weight [[fone; pzero]; [fone; pzero]])
  /\ Forall (fun row => vsum row = nan)
       (sharpen_weight [[fone; pzero]; [fone; pzero]])
  /\ target_distribution [[fone; pzero]; [fone; pzero]]
     = replicate 2 (replicate 2 nan).
Proof.
  split; [repeat constructor|].
  apply (zero_column_makes_every_entry_nan 2 2 _ 1).
  - split; [reflexivity | repeat constructor].
  - lia.
  - repeat constructor.
Defined.

(** C1 fails as stated.  The matrix below is a soft assignment (entries
    non-negative, rows summing to 1 exactly) whose second column has no
    mass; the weights of that column are NaN and not zero, and so is
    every entry of the result. *)
Lemma zero_mass_column_not_zero :
  f32_stochastic pzero [[fone; pzero]; [fone; pzero]] = true
  /\ colsum [[fone; pzero]; [fone; pzero]] 1 = pzero
  /\ sharpen_weight [[fone; pzero]; [fone; pzero]]
     = [[S754_finite false 8388608 (-24); nan];
        [S754_finite false 8388608 (-24); nan]]
  /\ target_distribution [[fone; pzero]; [fone; pzero]]
     = [[nan; nan]; [nan; nan]]
  /\ ~ (Forall (fun row => is_zero (nth 1 row pzero) = true)
          (target_distribution [[fone; pzero]; [fone; pzero]])
        /\ Forall (Forall (fun x => is_nan x = false))
             (target_distribution [[fone; pzero]; [fone; pzero]])).
Proof.
  repeat split; try reflexivity.
  intros [Hzero _]. vm_compute in Hzero.
  inversion Hzero as [|? ? Hhd _]. discriminate Hhd.
Qed.

(** C3 fails as stated.  One sample, two clusters: [q = [[1, 0]]] is a
    soft assignment, and the only row of [target_distribution q] is
    [[NaN, NaN]], which is not non-negative and does not sum to 1 within
    any tolerance. *)
Lemma sharpened_rows_not_stochastic :
  f32_stochastic pzero [[fone; pzero]] = true
  /\ target_distribution [[fone; pzero]] = [[nan; nan]]
  /\ forall tol, f32_stochastic tol (target_distribution [[fone; pzero]])
                 = false.
Proof.
  split; [reflexivity|]. split; [reflexivity|].
  intros tol. reflexivity.
Qed.

(** With every cluster in use nothing of the kind happens: a one-hot
    assignment comes back unchanged, bit for bit. *)
Example onehot_unchanged_f32 :
  target_distribution [[fone; pzero]; [pzero; fone]; [fone; pzero]]
  = [[fone; pzero]; [pzero; fone]; [fone; pzero]].
Proof. reflexivity. Qed.

End SharpenerF32.

(** ** Sums of real numbers *)

Module RealFacts.
Local Open Scope R_scope.

Lemma fold_left_Rplus l a : fold_left Rplus l a = a + Rsum l.
Proof.
  revert a. induction l as [|x l IH]; intros a; simpl; [lra|].
  rewrite IH. lra.
Qed.

(** Over the reals the reduction is the sum, in whatever order. *)
Lemma vsum_Rsum (v : vector R) : vsum v = Rsum v.
Proof.
  unfold vsum. change (@add R R_scalar) with Rplus.
  change (@zero R R_scalar) with 0. rewrite fold_left_Rplus. lra.
Qed.

Lemma Rsum_nonneg l : Forall (fun x => 0 <= x) l -> 0 <= Rsum l.
Proof. induction 1; simpl; lra. Qed.

Lemma Rsum_pos_In l x :
  Forall (fun y => 0 <= y) l -> In x l -> 0 < x -> 0 < Rsum l.
Proof.
  induction 1 as [|y l Hy Hl IH]; simpl; [done|].
  pose proof (Rsum_nonneg l Hl).
  intros [-> | Hin] Hx; [lra|]. specialize (IH Hin Hx). lra.
Qed.

Lemma Rsum_pos l : l <> [] -> Forall (fun x => 0 < x) l -> 0 < Rsum l.
Proof.
  intros Hne Hl. destruct l as [|x l]; [done|].
  inversion Hl; subst.
  apply (Rsum_pos_In _ x); [|by left|done].
  eapply Forall_impl; [exact Hl|]. simpl. intros; lra.
Qed.

Lemma Rsum_pos_inv l :
  Forall (fun y => 0 <= y) l -> 0 < Rsum l -> exists x, In x l /\ 0 < x.
Proof.
  induction 1 as [|y l Hy Hl IH]; simpl; [lra|]. intros Hsum.
  destruct (Rlt_le_dec 0 y) as [Hpos | Hle].
  - exists y. auto.
  - destruct IH as (x & Hin & Hx); [lra|]. exists x. auto.
Qed.

Lemma Rsum_map_div l c : Rsum (map (fun x => x / c) l) = Rsum l / c.
Proof. induction l as [|x l IH]; simpl; [lra|]. rewrite IH. lra. Qed.

Lemma Rsum_map_zero {B : Type} (f : B -> R) l :
  (forall x, In x l -> f x = 0) -> Rsum (map f l) = 0.
Proof.
  induction l as [|x l IH]; simpl; intros Hf; [done|].
  rewrite Hf, IH by auto. lra.
Qed.

(** A sum with a single non-zero term. *)
Lemma Rsum_single s k c a :
  (s <= c < s + k)%nat ->
  Rsum (map (fun j => if j =? c then a else 0) (seq s k)) = a.
Proof.
  revert s. induction k as [|k IH]; intros s Hc; simpl; [lia|].
  destruct (Nat.eqb_spec s c) as [-> | Hne].
  - rewrite Rsum_map_zero; [lra|]. intros j Hj%in_seq.
    destruct (Nat.eqb_spec j c); [lia | done].
  - rewrite IH by lia. lra.
Qed.

(** A concrete matrix is a soft assignment. *)
Ltac stochastic_rows :=
  unfold stochastic;
  repeat (apply Forall_cons_2;
          [split;
           [repeat (apply Forall_cons_2; [lra|]); apply Forall_nil_2
           |unfold vsum; simpl; lra]
          |]);
  apply Forall_nil_2.

(** Two concrete matrices are equal, entry by entry. *)
Ltac real_matrix_eq :=
  repeat match goal with
         | |- _ :: _ = _ :: _ => apply (f_equal2 cons)
         | |- [] = [] => reflexivity
         end;
  try (field; lra).

Lemma nth_onehot k c j :
  (j < k)%nat -> nth j (onehot k c) 0 = if j =? c then 1 else 0.
Proof. intros Hj. unfold onehot. by rewrite nth_map_seq. Qed.

Lemma length_onehot k c : length (onehot k c) = k.
Proof. unfold onehot. by rewrite length_map, length_seq. Qed.

End RealFacts.

(** ** The sharpener over the reals *)

Module SharpenerR.
Import RealFacts.
Local Open Scope R_scope.

Lemma weight_row_nonneg (f : nat -> R) k (row : vector R) :
  (forall i, (i < k)%nat -> 0 < f i) ->
  Forall (fun x => 0 <= x) (weight_row f k row).
Proof.
  intros Hf. unfold weight_row. apply Forall_map, Forall_seq.
  intros i Hi. simpl.
  change (0 <= nth i row 0 * nth i row 0 / f i).
  apply Rmult_le_pos; [nra|].
  apply Rlt_le, Rinv_0_lt_compat, Hf. lia.
Qed.

Lemma colsum_sum_axis0 n k (q : matrix R) j :
  shaped n k q -> (0 < n)%nat -> (j < k)%nat ->
  nth j (sum_axis0 q) 0 = colsum q j.
Proof.
  intros Hq Hn Hj. rewrite (sum_axis0_cols n k) by done.
  by rewrite nth_map_seq.
Qed.

(** C3, as the code has it.  For a soft assignment [q] (entries
    non-negative, rows summing to 1) in which every cluster has positive
    total mass, no division of [target_distribution] is by zero, and the
    result has the shape of [q], non-negative entries, and rows that sum
    to 1. *)
Theorem sharpened_rows_stochastic n k (q : matrix R) :
  shaped n k q -> stochastic q ->
  (forall j, (j < k)%nat -> 0 < colsum q j) ->
  Forall (fun s => 0 < s) (sum_axis1 (sharpen_weight q))
  /\ shaped n k (target_distribution q)
  /\ stochastic (target_distribution q).
Proof.
  intros Hq Hst Hcol.
  assert (Hrow : forall row, In row q ->
            Forall (fun x => 0 <= x) (weight_row (colsum q) k row)
            /\ 0 < Rsum (weight_row (colsum q) k row)).
  { intros row Hin.
    assert (Hnn := weight_row_nonneg (colsum q) k row Hcol).
    split; [done|].
    unfold stochastic in Hst. rewrite Forall_forall in Hst.
    destruct (Hst row) as [Hpos Hsum]; [by apply list_elem_of_In|].
    rewrite vsum_Rsum in Hsum.
    destruct (Rsum_pos_inv row Hpos) as (x & Hx & Hx0); [lra|].
    apply In_nth with (d := 0) in Hx as (j & Hj & Hnth).
    rewrite (shaped_rows n k q row Hq Hin) in Hj.
    apply (Rsum_pos_In _ (x * x / colsum q j)); [done| |].
    - unfold weight_row. apply in_map_iff. exists j.
      split; [simpl; by rewrite Hnth | apply in_seq; lia].
    - apply Rmult_lt_0_compat; [nra|].
      by apply Rinv_0_lt_compat, Hcol. }
  split; [|split].
  - unfold sum_axis1. rewrite (sharpen_weight_rowwise n k) by done.
    rewrite map_map. apply Forall_map, Forall_forall.
    intros row Hin%list_elem_of_In. simpl. rewrite vsum_Rsum.
    by apply Hrow.
  - by apply target_distribution_shaped.
  - unfold stochastic. rewrite (target_distribution_rowwise n k) by done.
    apply Forall_map, Forall_forall. intros row Hin%list_elem_of_In.
    cbv zeta. destruct (Hrow row Hin) as [Hnn Hpos].
    rewrite !vsum_Rsum. split.
    + apply Forall_map. eapply Forall_impl; [exact Hnn|].
      intros x Hx. simpl.
      change (0 <= x / Rsum (weight_row (colsum q) k row)).
      apply Rmult_le_pos; [done|]. by apply Rlt_le, Rinv_0_lt_compat.
    + change (@div R R_scalar) with Rdiv. rewrite Rsum_map_div.
      field. lra.
Qed.

(** The uniform assignment of two samples to two clusters. *)
Lemma sharpened_rows_stochastic_witness :
  stochastic (target_distribution [[/2; /2]; [/2; /2]]).
Proof.
  apply (sharpened_rows_stochastic 2 2).
  - split; [reflexivity | repeat constructor].
  - stochastic_rows.
  - intros j Hj. unfold colsum, vsum.
    destruct j as [|[|j]]; simpl; [lra|lra|lia].
Defined.

End SharpenerR.

(** *** One-hot assignments *)

Module OneHot.
Import RealFacts.
Local Open Scope R_scope.

Lemma Rsum_ge_In l x :
  Forall (fun y => 0 <= y) l -> In x l -> x <= Rsum l.
Proof.
  induction 1 as [|y l Hy Hl IH]; simpl; [done|].
  pose proof (Rsum_nonneg l Hl).
  intros [-> | Hin]; [lra|]. specialize (IH Hin). lra.
Qed.

(** Every used column of a one-hot matrix has mass at least 1. *)
Lemma onehot_colsum k (q : matrix R) j :
  (j < k)%nat ->
  Forall (fun row => exists c, (c < k)%nat /\ row = onehot k c) q ->
  (exists row, In row q /\ nth j row 0 = 1) ->
  1 <= colsum q j.
Proof.
  intros Hj Hq (row & Hin & Hone). unfold colsum. rewrite vsum_Rsum.
  apply Rsum_ge_In.
  - apply Forall_map. eapply Forall_impl; [exact Hq|].
    intros r (c & Hc & ->). simpl. change (@zero R R_scalar) with 0.
    rewrite nth_onehot by done. destruct (j =? c); lra.
  - apply in_map_iff. exists row. split; [exact Hone | done].
Qed.

Lemma weight_row_onehot (f : nat -> R) k c :
  weight_row f k (onehot k c)
  = map (fun j => if j =? c then / f c else 0) (seq 0 k).
Proof.
  unfold weight_row. apply map_ext_in. intros j Hj%in_seq.
  change (@zero R R_scalar) with 0. rewrite nth_onehot by lia.
  simpl. destruct (Nat.eqb_spec j c) as [-> | Hne];
    unfold Rdiv; ring.
Qed.

(** What [target_distribution] makes of a one-hot row whose own column
    has positive mass. *)
Lemma sharpen_onehot_row (f : nat -> R) k c :
  (c < k)%nat -> 0 < f c ->
  0 < vsum (weight_row f k (onehot k c))
  /\ map (fun x => x / vsum (weight_row f k (onehot k c)))
         (weight_row f k (onehot k c))
     = onehot k c.
Proof.
  intros Hc Hf. rewrite weight_row_onehot, vsum_Rsum.
  rewrite Rsum_single by lia. split; [by apply Rinv_0_lt_compat|].
  rewrite map_map. unfold onehot. apply map_ext_in. intros j Hj.
  destruct (j =? c); field; lra.
Qed.

(** C7. A one-hot soft assignment in which every cluster is used by at
    least one sample is a fixed point of [target_distribution], and no
    division on the way is by zero; the sharpener is nevertheless not
    idempotent: there is a soft assignment [q] for which sharpening
    [target_distribution q] once more changes it. *)
Theorem onehot_fixed_point_not_idempotent :
  (forall n k (q : matrix R),
     shaped n k q ->
     Forall (fun row => exists c, (c < k)%nat /\ row = onehot k c) q ->
     (forall j, (j < k)%nat -> exists row, In row q /\ nth j row 0 = 1) ->
     (forall j, (j < k)%nat -> 0 < colsum q j)
     /\ Forall (fun s => 0 < s) (sum_axis1 (sharpen_weight q))
     /\ target_distribution q = q)
  /\ (exists q : matrix R,
        stochastic q
        /\ target_distribution (target_distribution q)
           <> target_distribution q).
Proof.
  split.
  - intros n k q Hq Hrows Hused.
    assert (Hcol : forall j, (j < k)%nat -> 0 < colsum q j).
    { intros j Hj. pose proof (onehot_colsum k q j Hj Hrows (Hused j Hj)).
      lra. }
    rewrite Forall_forall in Hrows.
    split; [exact Hcol|]. split.
    + unfold sum_axis1. rewrite (sharpen_weight_rowwise n k) by done.
      rewrite map_map. apply Forall_map, Forall_forall. intros row Hin.
      destruct (Hrows row Hin) as (c & Hc & ->). simpl.
      by apply sharpen_onehot_row, Hcol.
    + rewrite (target_distribution_rowwise n k) by done.
      rewrite <- (map_id q) at 2. apply map_ext_in.
      intros row Hin%list_elem_of_In.
      destruct (Hrows row Hin) as (c & Hc & ->). cbv zeta.
      by apply sharpen_onehot_row, Hcol.
  - exists [[3/5; 2/5]; [2/5; 3/5]]. split.
    + stochastic_rows.
    + assert (H1 : target_distribution [[3/5; 2/5]; [2/5; 3/5]]
                   = [[9/13; 4/13]; [4/13; 9/13]]).
      { rewrite (target_distribution_rowwise 2 2)
          by (split; [reflexivity | repeat constructor]).
        unfold weight_row, colsum, vsum. simpl. real_matrix_eq. }
      rewrite H1.
      assert (H2 : target_distribution [[9/13; 4/13]; [4/13; 9/13]]
                   = [[81/97; 16/97]; [16/97; 81/97]]).
      { rewrite (target_distribution_rowwise 2 2)
          by (split; [reflexivity | repeat constructor]).
        unfold weight_row, colsum, vsum. simpl. real_matrix_eq. }
      rewrite H2. intros [= Heq _]. lra.
Qed.

(** Three samples on two clusters. *)
Lemma onehot_fixed_point_witness :
  target_distribution [onehot 2 0; onehot 2 1; onehot 2 0]
  = [onehot 2 0; onehot 2 1; onehot 2 0].
Proof.
  apply (proj1 onehot_fixed_point_not_idempotent 3%nat 2%nat).
  - split; [reflexivity | repeat constructor].
  - apply Forall_cons_2; [exists 0%nat; split; [lia | reflexivity]|].
    apply Forall_cons_2; [exists 1%nat; split; [lia | reflexivity]|].
    apply Forall_cons_2; [exists 0%nat; split; [lia | reflexivity]|].
    apply Forall_nil_2.
  - intros [|[|j]] Hj; [| |lia].
    + exists (onehot 2 0). split; [by left | reflexivity].
    + exists (onehot 2 1). split; [right; by left | reflexivity].
Defined.

End OneHot.

(** ** The clustering layer over the reals *)

Module LayerR.
Import RealFacts.
Local Open Scope R_scope.

Lemma sqdist_nonneg (x mu : vector R) : 0 <= sqdist x mu.
Proof.
  unfold sqdist. rewrite vsum_Rsum. apply Rsum_nonneg, Forall_map.
  apply Forall_forall. intros d _. simpl. nra.
Qed.


(** The base of the power: [1 + d^2 / alpha >= 1]. *)
Lemma kernel_base_ge_1 a (x mu : vector R) :
  0 < a -> 1 <= 1 + sqdist x mu / a.
Proof.
  intros Ha. pose proof (sqdist_nonneg x mu).
  assert (0 <= sqdist x mu / a); [|lra].
  apply Rmult_le_pos; [done|]. by apply Rlt_le, Rinv_0_lt_compat.
Qed.

(** [1 / (1 + d^2 / alpha)] lies in (0, 1]. *)
Lemma inverse_kernel_range a (x mu : vector R) :
  0 < a -> 0 < 1 / (1 + sqdist x mu / a) <= 1.
Proof.
  intros Ha. pose proof (kernel_base_ge_1 a x mu Ha) as Hb.
  split.
  - apply Rdiv_lt_0_compat; lra.
  - unfold Rdiv at 1. rewrite Rmult_1_l.
    apply Rle_trans with (/ 1); [|rewrite Rinv_1; lra].
    apply Rinv_le_contravar; lra.
Qed.

Lemma affinity_unfold a mus (x mu : vector R) :
  affinity {| alpha := a; clusters := mus |} x mu
  = Rpower (1 / (1 + sqdist x mu / a)) ((a + 1) / (1 + 1)).
Proof. reflexivity. Qed.


Lemma affinity_range a mus (x mu : vector R) :
  0 < a -> 0 < affinity {| alpha := a; clusters := mus |} x mu <= 1.
Proof.
  intros Ha. rewrite affinity_unfold. unfold Rpower.
  destruct (inverse_kernel_range a x mu Ha) as [Hlo Hhi].
  split; [apply exp_pos|].
  assert (Hln : ln (1 / (1 + sqdist x mu / a)) <= 0).
  { rewrite <- ln_1. destruct Hhi as [Hlt | ->]; [|lra].
    by apply Rlt_le, ln_increasing. }
  assert (He : 0 < (a + 1) / (1 + 1)) by (apply Rdiv_lt_0_compat; lra).
  remember ((a + 1) / (1 + 1) * ln (1 / (1 + sqdist x mu / a))) as t eqn:Ht.
  assert (Hexp : t <= 0) by (subst t; nra).
  apply Rle_trans with (exp 0); [|rewrite exp_0; lra].
  destruct Hexp as [Hlt | ->]; [|lra].
  by apply Rlt_le, exp_increasing.
Qed.


Lemma affinities_shaped a mus (inputs : matrix R) :
  shaped (length inputs) (length mus)
         (affinities {| alpha := a; clusters := mus |} inputs).
Proof.
  unfold affinities. split; [by rewrite length_map|].
  apply Forall_map, Forall_forall. intros x _. simpl.
  by rewrite length_map.
Qed.

(** [call], sample by sample. *)
Lemma call_rowwise a mus (inputs : matrix R) :
  call {| alpha := a; clusters := mus |} inputs
  = map (fun x =>
           let u := map (affinity {| alpha := a; clusters := mus |} x) mus in
           map (fun v => v / Rsum u) u) inputs.
Proof.
  unfold call.
  rewrite (normalize_rows_rowwise _ _ _ (affinities_shaped a mus inputs)).
  unfold affinities. rewrite map_map. apply map_ext. intros x. cbv zeta.
  simpl clusters. by rewrite vsum_Rsum.
Qed.

Lemma affinity_row_sum_pos a mus (x : vector R) :
  0 < a -> mus <> [] ->
  0 < Rsum (map (affinity {| alpha := a; clusters := mus |} x) mus).
Proof.
  intros Ha Hne. apply Rsum_pos.
  - by destruct mus.
  - apply Forall_map, Forall_forall. intros mu _. simpl.
    by apply affinity_range.
Qed.

Lemma call_shaped a (mus inputs : matrix R) :
  shaped (length inputs) (length mus)
         (call {| alpha := a; clusters := mus |} inputs).
Proof. apply normalize_rows_shaped, affinities_shaped. Qed.







End LayerR.

(** ** Clustering accuracy *)

Module AccuracyFacts.
Import Accuracy.
Local Open Scope Z_scope.

(** *** Sums of integers *)

Lemma fold_left_Zadd {B : Type} (f : B -> Z) l a :
  fold_left (fun s x => s + f x) l a = a + Zsum (map f l).
Proof.
  revert a. induction l as [|x l IH]; intros a; simpl; [lia|].
  rewrite IH. lia.
Qed.

Lemma paired_sum_Zsum m rows cols :
  paired_sum m rows cols
  = Zsum (map (fun ij => entry m ij.1 ij.2) (zip rows cols)).
Proof. unfold paired_sum. by rewrite fold_left_Zadd. Qed.

Lemma Zsum_map_add {B : Type} (f g : B -> Z) l :
  Zsum (map (fun x => f x + g x) l) = Zsum (map f l) + Zsum (map g l).
Proof. induction l as [|x l IH]; simpl; lia. Qed.

Lemma Zsum_map_zero {B : Type} (f : B -> Z) l :
  (forall x, In x l -> f x = 0) -> Zsum (map f l) = 0.
Proof.
  induction l as [|x l IH]; simpl; intros Hf; [done|].
  rewrite Hf, IH by auto. lia.
Qed.

(** A sum over [seq] with a single non-zero term. *)
Lemma Zsum_single (f : nat -> Z) s k c :
  (s <= c < s + k)%nat ->
  (forall j, j <> c -> f j = 0) ->
  Zsum (map f (seq s k)) = f c.
Proof.
  revert s. induction k as [|k IH]; intros s Hc Hf; simpl; [lia|].
  destruct (decide (s = c)) as [-> | Hne].
  - rewrite Zsum_map_zero; [lia|]. intros j Hj%in_seq. apply Hf. lia.
  - rewrite Hf by done. rewrite IH by (done || lia). lia.
Qed.

(** *** The contingency matrix *)

Lemma zeros_square d : square_matrix d (zeros d).
Proof.
  unfold zeros. split; [by rewrite length_replicate|].
  apply Forall_replicate. by rewrite length_replicate.
Qed.

Lemma incr_square d w i j :
  square_matrix d w -> square_matrix d (incr w i j).
Proof.
  intros [Hlen Hrows]. unfold incr. split; [by rewrite length_alter|].
  rewrite Forall_forall in Hrows. apply Forall_forall.
  intros row (k & Hk)%list_elem_of_lookup_1.
  rewrite list_lookup_alter in Hk. destruct (decide (i = k)) as [->|].
  - destruct (w !! k) as [r|] eqn:Hr; simplify_eq/=.
    rewrite length_alter. eapply Hrows, list_elem_of_lookup_2, Hr.
  - eapply Hrows, list_elem_of_lookup_2, Hk.
Qed.

Lemma contingency_square d y_pred y_true :
  square_matrix d (contingency d y_pred y_true).
Proof.
  unfold contingency. generalize (zeros_square d).
  generalize (zeros d). generalize (zip y_pred y_true).
  induction l as [|ij l IH]; intros w Hw; simpl; [done|].
  by apply IH, incr_square.
Qed.

Lemma cost_matrix_square d w :
  square_matrix d w -> square_matrix d (cost_matrix w).
Proof.
  intros [Hlen Hrows]. unfold cost_matrix.
  split; [by rewrite length_map|].
  apply Forall_map. eapply Forall_impl; [exact Hrows|].
  intros row Hrow. simpl. by rewrite length_map.
Qed.

Lemma entry_lookup w i j :
  entry w i j = default 0 (default [] (w !! i) !! j).
Proof. unfold entry. by rewrite !nth_lookup. Qed.

(** [w[i, j] += 1] adds one to that entry and to no other. *)
Lemma entry_incr d w i j a b :
  square_matrix d w -> (i < d)%nat -> (j < d)%nat ->
  entry (incr w i j) a b
  = entry w a b + (if decide (a = i /\ b = j) then 1 else 0).
Proof.
  intros [Hlen Hrows] Hi Hj. rewrite !entry_lookup. unfold incr.
  rewrite list_lookup_alter.
  destruct (decide (i = a)) as [<- | Hne].
  - destruct (lookup_lt_is_Some_2 w i ltac:(lia)) as [row Hrow].
    rewrite Hrow. simpl.
    assert (Hr : length row = d).
    { rewrite Forall_forall in Hrows.
      eapply Hrows, list_elem_of_lookup_2, Hrow. }
    rewrite list_lookup_alter.
    destruct (decide (j = b)) as [<- | Hnb].
    + destruct (lookup_lt_is_Some_2 row j ltac:(lia)) as [x ->]. simpl.
      rewrite decide_True by done. lia.
    + rewrite decide_False by (intros []; congruence). lia.
  - rewrite decide_False by (intros []; congruence). lia.
Qed.

Lemma entry_cost_matrix d w i j :
  square_matrix d w -> (i < d)%nat -> (j < d)%nat ->
  entry (cost_matrix w) i j = zmax (concat w) - entry w i j.
Proof.
  intros [Hlen Hrows] Hi Hj. rewrite !entry_lookup. unfold cost_matrix.
  rewrite list_lookup_fmap.
  destruct (lookup_lt_is_Some_2 w i ltac:(lia)) as [row Hrow].
  rewrite Hrow. simpl.
  assert (Hr : length row = d).
  { rewrite Forall_forall in Hrows.
    eapply Hrows, list_elem_of_lookup_2, Hrow. }
  rewrite list_lookup_fmap.
  by destruct (lookup_lt_is_Some_2 row j ltac:(lia)) as [x ->].
Qed.

(** *** Assignments as lists and as functions *)

Lemma zip_seq_columns sigma s :
  zip (seq s (length sigma)) sigma
  = map (fun a => (a, nth (a - s) sigma 0%nat)) (seq s (length sigma)).
Proof.
  revert s. induction sigma as [|c sigma IH]; intros s; simpl; [done|].
  rewrite Nat.sub_diag. f_equal. rewrite IH.
  apply map_ext_in. intros a Ha%in_seq.
  replace (a - s)%nat with (S (a - S s)) by lia. done.
Qed.

(** The cost of an assignment of all [d] rows, row by row. *)
Lemma paired_sum_columns m d sigma :
  length sigma = d ->
  paired_sum m (seq 0 d) sigma
  = Zsum (map (fun a => entry m a (column_of sigma a)) (seq 0 d)).
Proof.
  intros <-. rewrite paired_sum_Zsum, zip_seq_columns, map_map.
  f_equal. apply map_ext. intros a. simpl. by rewrite Nat.sub_0_r.
Qed.

Lemma permutation_columns d sigma :
  sigma ≡ₚ seq 0 d ->
  length sigma = d
  /\ (forall a, (a < d)%nat -> (column_of sigma a < d)%nat)
  /\ (forall a b, (a < d)%nat -> (b < d)%nat ->
        column_of sigma a = column_of sigma b -> a = b).
Proof.
  intros Hperm.
  assert (Hlen : length sigma = d).
  { apply Permutation_length in Hperm. by rewrite length_seq in Hperm. }
  split; [done|]. split.
  - intros a Ha. unfold column_of.
    assert (Hin : In (nth a sigma 0%nat) sigma) by (apply nth_In; lia).
    apply (Permutation_in _ Hperm), in_seq in Hin. lia.
  - intros a b Ha Hb Heq. unfold column_of in Heq.
    assert (Hnd : List.NoDup sigma).
    { apply (Permutation_NoDup (Permutation_sym Hperm)), List.seq_NoDup. }
    rewrite (List.NoDup_nth sigma 0%nat) in Hnd. apply Hnd; lia.
Qed.

(** The cost of an assignment in [w.max() - w] is a constant minus its
    weight in [w]. *)
Lemma paired_sum_cost d w sigma :
  square_matrix d w -> sigma ≡ₚ seq 0 d ->
  paired_sum (cost_matrix w) (seq 0 d) sigma
  = Z.of_nat d * zmax (concat w) - paired_sum w (seq 0 d) sigma.
Proof.
  intros Hw (Hlen & Hrange & _)%permutation_columns.
  rewrite !paired_sum_columns by done.
  assert (Hgen : forall l, Forall (fun a => (a < d)%nat) l ->
            Zsum (map (fun a => entry (cost_matrix w) a (column_of sigma a)) l)
            = Z.of_nat (length l) * zmax (concat w)
              - Zsum (map (fun a => entry w a (column_of sigma a)) l)).
  { induction 1 as [|a l Ha Hl IH]; [simpl; lia|].
    cbn [map Zsum fold_right length].
    change (fold_right Z.add 0) with Zsum. rewrite IH.
    rewrite (entry_cost_matrix d) by auto. lia. }
  rewrite Hgen by (apply Forall_seq; intros; lia).
  by rewrite length_seq.
Qed.

Lemma agreements_cons sigma a b y_pred y_true :
  agreements sigma (a :: y_pred) (b :: y_true)
  = ((if decide (sigma a = b) then 1 else 0)
     + agreements sigma y_pred y_true)%nat.
Proof.
  unfold agreements. simpl. rewrite filter_cons. simpl.
  by destruct (decide (sigma a = b)).
Qed.

(** The weight of an assignment in the contingency matrix is the number
    of samples it gets right. *)
Lemma paired_sum_contingency d sigma y_pred y_true :
  length sigma = d ->
  Forall (fun a => (a < d)%nat) y_pred ->
  Forall (fun b => (b < d)%nat) y_true ->
  paired_sum (contingency d y_pred y_true) (seq 0 d) sigma
  = Z.of_nat (agreements (column_of sigma) y_pred y_true).
Proof.
  intros Hlen Hp Ht. unfold contingency.
  assert (Hgen : forall w, square_matrix d w ->
            paired_sum
              (fold_left (fun w ij => incr w ij.1 ij.2) (zip y_pred y_true) w)
              (seq 0 d) sigma
            = paired_sum w (seq 0 d) sigma
              + Z.of_nat (agreements (column_of sigma) y_pred y_true)).
  { revert y_true Ht. induction Hp as [|a y_pred Ha Hp IH];
      intros y_true Ht w Hw.
    { unfold agreements. simpl. lia. }
    destruct Ht as [|b y_true Hb Ht].
    { unfold agreements. simpl. lia. }
    cbn [zip zip_with fold_left]. rewrite IH by (done || by apply incr_square).
    rewrite agreements_cons, !paired_sum_columns by done. simpl.
    rewrite (map_ext_in _ (fun x => entry w x (column_of sigma x)
               + (if decide (x = a /\ column_of sigma x = b) then 1 else 0))).
    2:{ intros x Hx%in_seq. apply (entry_incr d); auto. }
    rewrite Zsum_map_add.
    rewrite (Zsum_single
               (fun x => if decide (x = a /\ column_of sigma x = b)
                         then 1 else 0) 0 d a).
    - destruct (decide (column_of sigma a = b)).
      + rewrite decide_True by done. lia.
      + rewrite decide_False by (intros []; congruence). lia.
    - lia.
    - intros j Hj. simpl. by rewrite decide_False by (intros []; congruence). }
  rewrite Hgen by apply zeros_square.
  rewrite paired_sum_columns by done.
  rewrite Zsum_map_zero; [lia|].
  intros a Ha%in_seq. unfold zeros. rewrite entry_lookup.
  rewrite lookup_replicate_2 by lia. simpl.
  destruct (decide (column_of sigma a < d)%nat).
  - by rewrite lookup_replicate_2.
  - rewrite (proj1 (lookup_replicate_None _ _ _)) by lia. done.
Qed.

(** *** Extending a partial matching to a permutation *)

Lemma swap_injective u v : Finite.Injective (swap u v).
Proof.
  intros x y. unfold swap. repeat case_decide; congruence.
Qed.

Lemma swap_bound n u v x :
  (u < n)%nat -> (v < n)%nat -> (x < n)%nat -> (swap u v x < n)%nat.
Proof. intros. unfold swap. repeat case_decide; lia. Qed.

Lemma swap_left u v : swap u v u = v.
Proof. unfold swap. by rewrite decide_True. Qed.

Lemma swap_other u v x : x <> u -> x <> v -> swap u v x = x.
Proof. intros. unfold swap. by rewrite !decide_False. Qed.

(** Two injections [u], [v] of a finite set [dom] into [0 .. n - 1] differ
    by a permutation of [0 .. n - 1]: some bijection [f] of the naturals
    that keeps [0 .. n - 1] in place has [f (u a) = v a] on [dom]. *)
Lemma extend_matching n (dom : list nat) (u v : nat -> nat) :
  (forall a, In a dom -> (u a < n)%nat /\ (v a < n)%nat) ->
  (forall a b, In a dom -> In b dom -> u a = u b -> a = b) ->
  (forall a b, In a dom -> In b dom -> v a = v b -> a = b) ->
  exists f : nat -> nat,
    Finite.Injective f
    /\ (forall x, (x < n)%nat -> (f x < n)%nat)
    /\ (forall a, In a dom -> f (u a) = v a).
Proof.
  induction dom as [|a dom IH]; intros Hrange Hu Hv.
  { exists (fun x => x). split; [by intros x y|]. split; [done|]. by intros a []. }
  destruct IH as (f0 & Hinj & Hbound & Hext).
  { intros b Hb. apply Hrange. by right. }
  { intros b c Hb Hc. apply Hu; by right. }
  { intros b c Hb Hc. apply Hv; by right. }
  destruct (in_dec Nat.eq_dec a dom) as [Hin | Hnotin].
  { exists f0. split; [done|]. split; [done|].
    intros b [<- | Hb]; by apply Hext. }
  destruct (Hrange a (or_introl eq_refl)) as [Hua Hva].
  exists (fun x => swap (f0 (u a)) (v a) (f0 x)).
  split; [|split].
  - intros x y Hxy. by apply Hinj, (swap_injective (f0 (u a)) (v a)).
  - intros x Hx. apply swap_bound; auto.
  - intros b [<- | Hb]; [apply swap_left|].
    rewrite (Hext b Hb). rewrite <- (Hext b Hb) at 1.
    rewrite swap_other; [by apply Hext| |].
    + intros Heq%Hinj. apply Hnotin.
      rewrite (Hu a b); [done|by left|by right|done].
    + rewrite (Hext b Hb). intros Heq. apply Hnotin.
      rewrite (Hv a b); [done|by left|by right|done].
Qed.

(** *** Counting agreements *)

Lemma agreements_nil_l sigma y_true : agreements sigma [] y_true = 0%nat.
Proof. done. Qed.

Lemma agreements_nil_r sigma y_pred : agreements sigma y_pred [] = 0%nat.
Proof. by destruct y_pred. Qed.

Lemma agreements_map sigma (u : nat -> nat) y_pred y_true :
  agreements sigma (map u y_pred) y_true
  = agreements (fun a => sigma (u a)) y_pred y_true.
Proof.
  revert y_true. induction y_pred as [|a y_pred IH]; intros [|b y_true];
    try done.
  cbn [map]. by rewrite !agreements_cons, IH.
Qed.

Lemma agreements_mono s1 s2 y_pred y_true :
  (forall a b, In (a, b) (zip y_pred y_true) -> s1 a = b -> s2 a = b) ->
  (agreements s1 y_pred y_true <= agreements s2 y_pred y_true)%nat.
Proof.
  revert y_true. induction y_pred as [|a y_pred IH]; intros [|b y_true] Hs;
    try (rewrite ?agreements_nil_l, ?agreements_nil_r; lia).
  rewrite !agreements_cons.
  assert (agreements s1 y_pred y_true <= agreements s2 y_pred y_true)%nat.
  { apply IH. intros a' b' Hin. apply Hs. by right. }
  destruct (decide (s1 a = b)) as [Heq|]; [|lia].
  rewrite decide_True by (apply Hs; [by left|done]). lia.
Qed.

Lemma in_zip_l (a b : nat) y_pred y_true :
  In (a, b) (zip y_pred y_true) -> In a y_pred.
Proof. intros Hin%list_elem_of_In. eapply list_elem_of_In, elem_of_zip_l, Hin. Qed.

Lemma in_zip_r (a b : nat) y_pred y_true :
  In (a, b) (zip y_pred y_true) -> In b y_true.
Proof. intros Hin%list_elem_of_In. eapply list_elem_of_In, elem_of_zip_r, Hin. Qed.

(** Whatever a relabelling [v] of the clusters gets right can be got
    right, after the clusters were renamed by [u], by a permutation of
    [0 .. d - 1]. *)
Lemma dominated d (u v : nat -> nat) y_pred y_true :
  (forall a, In a y_pred -> (u a < d)%nat) ->
  (forall b, In b y_true -> (b < d)%nat) ->
  (forall a b, In a y_pred -> In b y_pred -> u a = u b -> a = b) ->
  (forall a b, In a y_pred -> In b y_pred -> v a = v b -> a = b) ->
  exists sigma,
    sigma ≡ₚ seq 0 d
    /\ (agreements v y_pred y_true
        <= agreements (column_of sigma) (map u y_pred) y_true)%nat.
Proof.
  intros Hu Ht Huinj Hvinj.
  set (dom := map fst (filter (fun ab : nat * nat => v ab.1 = ab.2)
                              (zip y_pred y_true))).
  assert (Hdom : forall a, In a dom ->
            exists b, In (a, b) (zip y_pred y_true) /\ v a = b).
  { intros a ([a' b] & <- & Hin)%in_map_iff.
    apply list_elem_of_In, list_elem_of_filter in Hin as [Hv Hin].
    exists b. split; [by apply list_elem_of_In|done]. }
  destruct (extend_matching d dom u v) as (f & Hinj & Hbound & Hext).
  - intros a (b & Hin & <-)%Hdom. split.
    + eapply Hu, in_zip_l, Hin.
    + eapply Ht, in_zip_r, Hin.
  - intros a b (? & Ha & _)%Hdom (? & Hb & _)%Hdom.
    apply Huinj; eapply in_zip_l; eauto.
  - intros a b (? & Ha & _)%Hdom (? & Hb & _)%Hdom.
    apply Hvinj; eapply in_zip_l; eauto.
  - exists (map f (seq 0 d)). split.
    + by apply nat_bijection_Permutation.
    + rewrite agreements_map. apply agreements_mono.
      intros a b Hin Hv. unfold column_of.
      rewrite nth_map_seq by (eapply Hu, in_zip_l, Hin).
      rewrite Hext; [done|]. unfold dom. apply in_map_iff.
      exists (a, b). split; [done|].
      apply list_elem_of_In, list_elem_of_filter. split; [done|].
      by apply list_elem_of_In.
Qed.

(** *** The accuracy under an exact solver *)

Section Invariance.
Variable solver : imatrix -> list nat * list nat.
Hypothesis solver_optimal : optimal_assignment solver.

(** The sum [s] of [acc_cluster] is the largest number of agreements
    that a permutation of the [d] indices reaches. *)
Lemma matched_is_best d y_pred y_true :
  Forall (fun a => (a < d)%nat) y_pred ->
  Forall (fun b => (b < d)%nat) y_true ->
  let w := contingency d y_pred y_true in
  let ind := solver (cost_matrix w) in
  exists best,
    best ≡ₚ seq 0 d
    /\ paired_sum w ind.1 ind.2
       = Z.of_nat (agreements (column_of best) y_pred y_true)
    /\ forall sigma, sigma ≡ₚ seq 0 d ->
         (agreements (column_of sigma) y_pred y_true
          <= agreements (column_of best) y_pred y_true)%nat.
Proof.
  intros Hp Ht w ind.
  pose proof (contingency_square d y_pred y_true) as Hw. fold w in Hw.
  destruct (cost_matrix_square d w Hw) as [Hclen Hcrows].
  destruct (solver_optimal d (cost_matrix w) Hclen Hcrows)
    as (Hrows & Hperm & Hopt).
  fold ind in Hrows, Hperm, Hopt.
  exists ind.2. split; [done|].
  pose proof (permutation_columns d _ Hperm) as (Hlen & _ & _).
  split.
  - rewrite Hrows. unfold w. by apply paired_sum_contingency.
  - intros sigma Hsigma.
    pose proof (permutation_columns d _ Hsigma) as (Hlen' & _ & _).
    specialize (Hopt sigma Hsigma). rewrite Hrows in Hopt.
    rewrite !(paired_sum_cost d) in Hopt by done.
    unfold w in Hopt. rewrite !paired_sum_contingency in Hopt by done.
    lia.
Qed.

Lemma labels_below_D (l1 l2 : list nat) :
  Forall (fun a => (a < Nat.max (max_list l1) (max_list l2) + 1)%nat) l1
  /\ Forall (fun a => (a < Nat.max (max_list l1) (max_list l2) + 1)%nat) l2.
Proof.
  split; apply Forall_forall; intros a Ha%max_list_elem_of_le; lia.
Qed.

(** Renaming the predicted clusters by a map that is injective on the
    labels in use does not change the accuracy. *)
Lemma acc_cluster_injective_relabelling y_true y_pred (perm : nat -> nat) :
  (forall a b, In a y_pred -> In b y_pred -> perm a = perm b -> a = b) ->
  acc_cluster solver y_true (map perm y_pred)
  = acc_cluster solver y_true y_pred.
Proof.
  intros Hinj. unfold acc_cluster. rewrite length_map.
  destruct (decide (length y_pred = length y_true)) as [Hlen|]; [|done].
  destruct y_pred as [|a0 y_pred0]; [done|].
  cbn [map]. cbv zeta.
  change (perm a0 :: map perm y_pred0) with (map perm (a0 :: y_pred0)).
  remember (a0 :: y_pred0) as y_pred eqn:Hyp. clear Hyp a0 y_pred0.
  do 3 f_equal.
  set (D := (Nat.max (max_list y_pred) (max_list y_true) + 1)%nat).
  set (D' := (Nat.max (max_list (map perm y_pred)) (max_list y_true) + 1)%nat).
  destruct (labels_below_D y_pred y_true) as [Hp Ht]. fold D in Hp, Ht.
  destruct (labels_below_D (map perm y_pred) y_true) as [Hp' Ht'].
  fold D' in Hp', Ht'.
  destruct (matched_is_best D y_pred y_true Hp Ht) as (c & Hc & -> & Hbest).
  destruct (matched_is_best D' (map perm y_pred) y_true Hp' Ht')
    as (c' & Hc' & -> & Hbest').
  pose proof (permutation_columns D c Hc) as (_ & Hcr & Hci).
  pose proof (permutation_columns D' c' Hc') as (_ & Hcr' & Hci').
  rewrite Forall_forall in Hp, Ht, Hp', Ht'.
  assert (Hpa : forall a, In a y_pred -> (a < D)%nat)
    by (intros a Ha; by apply Hp, list_elem_of_In).
  assert (Hpa' : forall a, In a y_pred -> (perm a < D')%nat).
  { intros a Ha. apply Hp', list_elem_of_In, in_map, Ha. }
  f_equal. apply Nat.le_antisymm.
  - (* every matching of the renamed clusters is matched before renaming *)
    destruct (dominated D (fun a => a) (fun a => column_of c' (perm a))
                y_pred y_true) as (sigma & Hsigma & Hle).
    + exact Hpa.
    + intros b Hb. by apply Ht, list_elem_of_In.
    + done.
    + intros a b Ha Hb Heq. apply Hinj; [done|done|].
      apply Hci'; auto.
    + rewrite map_id in Hle. rewrite agreements_map.
      etransitivity; [exact Hle|]. by apply Hbest.
  - destruct (dominated D' perm (column_of c) y_pred y_true)
      as (sigma & Hsigma & Hle).
    + exact Hpa'.
    + intros b Hb. by apply Ht', list_elem_of_In.
    + exact Hinj.
    + intros a b Ha Hb Heq. apply Hci; auto.
    + etransitivity; [exact Hle|]. by apply Hbest'.
Qed.

(** C4. For label arrays [y_true], [y_pred] and a permutation [perm] of
    the cluster indices [0 .. K - 1], the accuracy of the permuted
    predictions is the accuracy of the predictions, whenever
    [linear_assignment] returns an optimal assignment (as the exact
    solver of scipy does); when the arrays differ in length or are empty
    both calls raise. *)
Theorem acc_cluster_permutation_invariant
    (K : nat) (perm : nat -> nat) (y_true y_pred : list nat) :
  (forall a, (a < K)%nat -> (perm a < K)%nat) ->
  (forall a b, (a < K)%nat -> (b < K)%nat -> perm a = perm b -> a = b) ->
  Forall (fun a => (a < K)%nat) y_pred ->
  acc_cluster solver y_true (map perm y_pred)
  = acc_cluster solver y_true y_pred.
Proof.
  intros _ Hinj Hlabels. apply acc_cluster_injective_relabelling.
  rewrite Forall_forall in Hlabels.
  intros a b Ha%list_elem_of_In Hb%list_elem_of_In. apply Hinj; auto.
Qed.

End Invariance.

(** *** The exhaustive solver is exact *)

Lemma cheapest_spec c rows cands start :
  (cheapest c rows cands start = start
   \/ In (cheapest c rows cands start) cands)
  /\ paired_sum c rows (cheapest c rows cands start)
     <= paired_sum c rows start
  /\ forall sigma, In sigma cands ->
       paired_sum c rows (cheapest c rows cands start)
       <= paired_sum c rows sigma.
Proof.
  unfold cheapest. revert start.
  induction cands as [|x cands IH]; intros start; simpl.
  { split; [by left|]. split; [lia|]. by intros sigma []. }
  destruct (Z.ltb_spec (paired_sum c rows x) (paired_sum c rows start))
    as [Hlt | Hge].
  - destruct (IH x) as (Hin & Hle & Hmin). split; [|split].
    + right. destruct Hin as [-> | Hin]; [by left | by right].
    + lia.
    + intros sigma [<- | Hs]; [done | by apply Hmin].
  - destruct (IH start) as (Hin & Hle & Hmin). split; [|split].
    + destruct Hin as [-> | Hin]; [by left | right; by right].
    + done.
    + intros sigma [<- | Hs]; [lia | by apply Hmin].
Qed.

Lemma exhaustive_assignment_optimal :
  optimal_assignment exhaustive_assignment.
Proof.
  intros d c Hlen _. unfold exhaustive_assignment. rewrite Hlen. simpl.
  destruct (cheapest_spec c (seq 0 d) (permutations (seq 0 d)) (seq 0 d))
    as (Hin & _ & Hmin).
  split; [done|]. split.
  - destruct Hin as [-> | Hin]; [done|].
    symmetry. by apply permutations_Permutation, list_elem_of_In.
  - intros sigma Hsigma. apply Hmin, list_elem_of_In.
    apply permutations_Permutation. by symmetry.
Qed.

(** Three samples, the two cluster indices exchanged. *)
Lemma acc_cluster_permutation_invariant_witness :
  acc_cluster exhaustive_assignment [0; 0; 1]%nat
    (map (fun a => (1 - a)%nat) [1; 1; 0]%nat)
  = acc_cluster exhaustive_assignment [0; 0; 1]%nat [1; 1; 0]%nat.
Proof.
  apply (acc_cluster_permutation_invariant exhaustive_assignment
           exhaustive_assignment_optimal 2).
  - intros a Ha. lia.
  - intros a b Ha Hb Heq. lia.
  - repeat constructor.
Defined.

(** The accuracy of a perfect clustering under exchanged names, and of a
    clustering that splits one class. *)
Example acc_cluster_exchanged :
  acc_cluster exhaustive_assignment [0; 0; 1]%nat [1; 1; 0]%nat
  = Some (3 / 3)%Q.
Proof. reflexivity. Qed.

Example acc_cluster_split :
  acc_cluster exhaustive_assignment [0; 0; 1; 1]%nat [0; 2; 1; 1]%nat
  = Some (3 / 4)%Q.
Proof. reflexivity. Qed.

Example acc_cluster_raises :
  acc_cluster exhaustive_assignment [0; 1]%nat [0]%nat = None
  /\ acc_cluster exhaustive_assignment [] [] = None.
Proof. split; reflexivity. Qed.

End AccuracyFacts.

(** ** The loop on the small run *)

Module ToyFacts.
Import Loop.

(** After a full update interval nothing has changed and the loop
    stops. *)
Example toy_run_converges :
  (Toy.run 2 200).1.1 = CONVERGED
  /\ length (trained (Toy.run 2 200).2) = 140.
Proof. split; vm_compute; reflexivity. Qed.

Example toy_run_three :
  (Toy.run 2 3).1.1 = MAX_ITER_REACHED
  /\ trained (Toy.run 2 3).2 = [[0; 1]; [2; 3]; []].
Proof. split; reflexivity. Qed.

Lemma maxiter_one_max_iter_reached_witness :
  (Toy.run 2 1).1.1 = MAX_ITER_REACHED
  /\ trained (Toy.run 2 1).2 = [batch_indices 4 2 0].
Proof.
  apply (proj2 (LoopFacts.maxiter_one_max_iter_reached unit nat unit
                  Toy.predict Toy.train_on_batch
                  Accuracy.exhaustive_assignment Toy.metric Toy.metric
                  (fun l => l) Toy.X (Some [0; 0; 0; 0]) 2
                  default_update_interval
                  default_tol tt [0; 0; 0; 0])).
  - unfold default_update_interval. lia.
  - reflexivity.
  - intros l [= <-]. by eexists.
Defined.

Lemma multiple_of_batch_size_draws_empty_slice_witness :
  cursor 4 2 2 = 4 / 2
  /\ batch_indices 4 2 (cursor 4 2 2) = slice 4 4
  /\ trained (Toy.run 2 3).2 !! 2 = Some [].
Proof.
  destruct (LoopFacts.multiple_of_batch_size_draws_empty_slice unit nat unit
              Toy.predict Toy.train_on_batch
              Accuracy.exhaustive_assignment Toy.metric Toy.metric
              (fun l => l) Toy.X (Some [0; 0; 0; 0]) 2
              default_update_interval
              default_tol 4 2 2)
    as (_ & _ & Hcur & Hdraw & _ & _ & _ & Hrun); [lia | lia | lia |].
  split; [exact Hcur|]. split; [exact Hdraw|].
  apply (Hrun 3 tt [0; 0; 0; 0] (Toy.run 2 3).1.2); [done | done | lia |].
  reflexivity.
Defined.

End ToyFacts.

(** * Further properties *)

(** ** The minibatch cursor, continued *)

Module CursorCycle.
Import Loop CursorFacts.

Lemma cursor_small n b t : 0 < b -> t <= n / b -> cursor n b t = t.
Proof.
  intros Hb Ht. rewrite cursor_closed_form by done.
  apply Nat.mod_small. lia.
Qed.

Lemma div_mul_le_self n b : n / b * b <= n.
Proof.
  destruct b as [|b]; [simpl; lia|].
  pose proof (Nat.div_mod_eq n (S b)). lia.
Qed.

Lemma lt_succ_div_mul n b : 0 < b -> n < (n / b + 1) * b.
Proof.
  intros Hb. pose proof (Nat.div_mod_eq n b).
  pose proof (Nat.mod_upper_bound n b ltac:(lia)). lia.
Qed.

(** Consecutive runs of indices, glued. *)
Lemma concat_consecutive (g : nat -> nat) m :
  (forall i, i < m -> g i <= g (S i)) ->
  concat (map (fun i => seq (g i) (g (S i) - g i)) (seq 0 m))
  = seq (g 0) (g m - g 0).
Proof.
  induction m as [|m IH]; intros Hg.
  { by rewrite Nat.sub_diag. }
  rewrite seq_S, map_app, concat_app, IH by (intros; apply Hg; lia).
  simpl. rewrite app_nil_r.
  assert (g 0 <= g m).
  { clear IH. induction m as [|m IHm]; [done|].
    etransitivity; [apply IHm; intros; apply Hg; lia|]. apply Hg. lia. }
  pose proof (Hg m ltac:(lia)).
  replace (g (S m) - g 0) with ((g m - g 0) + (g (S m) - g m)) by lia.
  rewrite seq_app. do 2 f_equal. lia.
Qed.

(** X1. One turn of the cursor, the [n / b + 1] draws from index 0 to the
    wrap, goes through the whole of [arange(n)] once and in order: every
    sample is in exactly one batch of the turn. *)
Theorem one_turn_covers_the_data n b :
  0 < b -> concat (draws n b (n / b + 1)) = seq 0 n.
Proof.
  intros Hb. unfold draws.
  rewrite (map_ext_in _ (fun i => seq (Nat.min (i * b) n)
                           (Nat.min (S i * b) n - Nat.min (i * b) n))).
  - rewrite (concat_consecutive (fun i => Nat.min (i * b) n)).
    + simpl. pose proof (lt_succ_div_mul n b Hb). f_equal. lia.
    + intros i _. simpl. lia.
  - intros i Hi%in_seq. rewrite cursor_small by (done || lia).
    rewrite batch_indices_seq.
    assert (i * b <= n / b * b) by (apply Nat.mul_le_mono_r; lia).
    pose proof (div_mul_le_self n b).
    replace (Nat.min (i * b) n) with (i * b) by lia.
    f_equal. f_equal. lia.
Qed.

Lemma one_turn_covers_the_data_witness :
  concat (draws 300 128 (300 / 128 + 1)) = seq 0 300.
Proof. apply one_turn_covers_the_data. lia. Defined.

(** X2. Whatever the cursor, a batch is a run of at most [batch_size]
    distinct indices, all of them valid, and its length is
    [min((index + 1) * b, n) - index * b]. *)
Theorem batch_is_bounded n b i :
  length (batch_indices n b i) = Nat.min ((i + 1) * b) n - i * b
  /\ length (batch_indices n b i) <= b
  /\ NoDup (batch_indices n b i)
  /\ Forall (fun j => j < n) (batch_indices n b i).
Proof.
  split; [|split; [|split]].
  - by rewrite batch_indices_seq, length_seq.
  - rewrite batch_indices_seq, length_seq. lia.
  - rewrite batch_indices_seq. apply NoDup_seq.
  - apply batch_indices_bound.
Qed.

(** X3. The cursor never runs past the data: [index * b <= n] holds after
    any number of iterations, the cursor stays in [0 .. n / b], and the
    batch under it is empty only at [index * b = n]. *)
Theorem cursor_stays_in_range n b t :
  0 < b ->
  cursor n b t <= n / b
  /\ cursor n b t * b <= n
  /\ (batch_indices n b (cursor n b t) = [] <-> cursor n b t * b = n).
Proof.
  intros Hb.
  assert (Hq : cursor n b t <= n / b).
  { rewrite cursor_closed_form by done.
    pose proof (Nat.mod_upper_bound t (n / b + 1) ltac:(lia)). lia. }
  assert (Hle : cursor n b t * b <= n).
  { pose proof (div_mul_le_self n b).
    assert (cursor n b t * b <= n / b * b)
      by (by apply Nat.mul_le_mono_r). lia. }
  split; [done|]. split; [done|].
  rewrite batch_indices_seq. split.
  - intros Hnil. apply (f_equal length) in Hnil.
    rewrite length_seq in Hnil. simpl in Hnil. nia.
  - intros Heq. replace (_ - _) with 0 by lia. done.
Qed.

Lemma cursor_stays_in_range_witness :
  cursor 300 128 7 <= 300 / 128 /\ cursor 300 128 7 * 128 <= 300.
Proof.
  destruct (cursor_stays_in_range 300 128 7) as (H1 & H2 & _); [lia|].
  by split.
Defined.

Lemma gather_seq {T : Type} (a : list T) lo k :
  lo + k <= length a ->
  gather a (seq lo k) = Some (take k (drop lo a)).
Proof.
  unfold gather. revert lo. induction k as [|k IH]; intros lo Hle; simpl.
  { done. }
  destruct (lookup_lt_is_Some_2 a lo ltac:(lia)) as [x Hx].
  rewrite Hx. simpl. rewrite IH by lia. simpl.
  by rewrite (drop_S _ _ _ Hx).
Qed.

(** X4. Indexing an array of [n] rows with a batch never raises and is
    plain slicing: [a[idx]] is [a[lo:hi]] for the bounds of the batch. *)
Theorem gather_batch_is_slice {T : Type} (a : list T) b i :
  gather a (batch_indices (length a) b i)
  = Some (take (Nat.min ((i + 1) * b) (length a) - i * b)
               (drop (i * b) a)).
Proof.
  rewrite batch_indices_seq.
  destruct (decide (i * b <= length a)) as [Hle | Hgt].
  - apply gather_seq. lia.
  - replace (_ - _) with 0 by lia. done.
Qed.

(** X5. With a batch size of 0 nothing raises and nothing wraps: every
    batch is empty and the cursor counts the iterations. *)
Theorem zero_batch_size_never_wraps n t :
  cursor n 0 t = t /\ batch_indices n 0 t = [].
Proof.
  split.
  - induction t as [|t IH]; simpl; [done|]. rewrite IH.
    rewrite next_index_advance by lia. lia.
  - rewrite batch_indices_seq. replace (_ - _) with 0 by lia. done.
Qed.

End CursorCycle.

(** ** Fractions of counts *)

Module CountFraction.

(** The quotient of two counts, as [acc_cluster] and [delta_label] form
    it. *)
Lemma count_fraction_range (c n : nat) :
  0 < n ->
  (0 <= inject_Z (Z.of_nat c) / inject_Z (Z.of_nat n))%Q
  /\ (c <= n -> (inject_Z (Z.of_nat c) / inject_Z (Z.of_nat n) <= 1)%Q)
  /\ ((inject_Z (Z.of_nat c) / inject_Z (Z.of_nat n) == 0)%Q <-> c = 0)
  /\ ((inject_Z (Z.of_nat c) / inject_Z (Z.of_nat n) == 1)%Q <-> c = n).
Proof.
  intros Hn. destruct n as [|n]; [lia|].
  unfold Qdiv, Qinv, Qmult, Qle, Qeq, inject_Z. simpl.
  split; [lia|]. split; [lia|]. split; lia.
Qed.

End CountFraction.

(** ** The training loop, continued *)

Module LoopStops.
Import Loop CursorFacts LoopFacts.

Lemma changed_same l : changed l l = 0.
Proof.
  unfold changed. induction l as [|x l IH]; [done|].
  cbn [zip zip_with]. rewrite filter_cons. simpl.
  rewrite decide_False by (intros Hne; by apply Hne). exact IH.
Qed.

Lemma changed_le y_pred y_pred_last :
  changed y_pred y_pred_last <= length y_pred.
Proof.
  unfold changed. etransitivity; [apply length_filter|].
  rewrite length_zip. lia.
Qed.

Lemma changed_zero y_pred y_pred_last :
  length y_pred = length y_pred_last ->
  changed y_pred y_pred_last = 0 -> y_pred = y_pred_last.
Proof.
  unfold changed. revert y_pred_last.
  induction y_pred as [|a y_pred IH]; intros [|b y_pred_last] Hlen Hc;
    try done.
  cbn [zip zip_with] in Hc. rewrite filter_cons in Hc. simpl in Hc.
  destruct (decide (a <> b)) as [|Heq]; [done|].
  f_equal; [by destruct (decide (a = b))|].
  apply IH; [by injection Hlen | done].
Qed.

Lemma delta_label_spec y_pred y_pred_last :
  length y_pred = length y_pred_last -> y_pred <> [] ->
  exists d,
    delta_label y_pred y_pred_last = Some d
    /\ (0 <= d)%Q /\ (d <= 1)%Q
    /\ ((d == 0)%Q <-> y_pred = y_pred_last).
Proof.
  intros Hlen Hne. unfold delta_label.
  destruct (length y_pred) as [|n] eqn:Hn; [by destruct y_pred|].
  rewrite <- Hn. eexists. split; [reflexivity|].
  destruct (CountFraction.count_fraction_range
              (changed y_pred y_pred_last) (length y_pred) ltac:(lia))
    as (H0 & H1 & Hz & _).
  split; [done|]. split; [apply H1, changed_le|].
  rewrite Hz. split.
  - intros Hc. apply changed_zero; [congruence | done].
  - intros ->. apply changed_same.
Qed.

(** X6. The drift between two label arrays of one non-zero length is a
    fraction between 0 and 1, and it is 0 exactly when no label has
    changed. *)
Theorem delta_label_range y_pred y_pred_last :
  length y_pred = length y_pred_last -> y_pred <> [] ->
  exists d,
    delta_label y_pred y_pred_last = Some d
    /\ (0 <= d)%Q /\ (d <= 1)%Q
    /\ ((d == 0)%Q <-> y_pred = y_pred_last).
Proof. apply delta_label_spec. Qed.

Lemma delta_label_range_witness :
  exists d, delta_label [0; 1; 1] [0; 1; 0] = Some d
            /\ (0 <= d)%Q /\ (d <= 1)%Q.
Proof.
  destruct (delta_label_range [0; 1; 1] [0; 1; 0]) as (d & Hd & H0 & H1 & _);
    [reflexivity | discriminate |].
  exists d. auto.
Defined.

Section WithModel.
Context {A : Type} `{Scalar A} `{Ordered A}.
Variables (Model Sample Metric : Type).
Variable predict : Model -> list Sample -> matrix A.
Variable train_on_batch :
  Model -> list Sample -> matrix A -> Model * A.
Variable linear_assignment :
  Accuracy.imatrix -> list nat * list nat.
Variables nmi ari : list nat -> list nat -> Metric.
Variable round_loss : A -> A.
Variable X : list Sample.
Variable y : option (list nat).
Variables (batch_size update_interval : nat) (tol : Q).

Local Abbreviation tick :=
  (tick Model Sample Metric predict linear_assignment nmi ari round_loss
     X y tol).
Local Abbreviation train :=
  (train Model Sample Metric train_on_batch X batch_size).
Local Abbreviation iteration :=
  (iteration Model Sample Metric predict train_on_batch linear_assignment
     nmi ari round_loss X y batch_size update_interval tol).
Local Abbreviation loop :=
  (loop Model Sample Metric predict train_on_batch linear_assignment
     nmi ari round_loss X y batch_size update_interval tol).
Local Abbreviation run :=
  (run Model Sample Metric predict train_on_batch linear_assignment
     nmi ari round_loss X y batch_size update_interval tol).
Local Abbreviation state := (state (A:=A) Model).
Local Abbreviation event := (event (A:=A) Metric).

(** What a tick writes. *)
Lemma tick_writes ite (st st' : state) (log : list event) :
  tick ite st = Continue st' log \/ tick ite st = Break st' log ->
  model st' = model st /\ index st' = index st
  /\ p st' = target_distribution (predict (model st) X)
  /\ y_pred_last st' = map argmax (predict (model st) X)
  /\ trained log = [].
Proof.
  unfold Loop.tick. cbv zeta.
  destruct y as [labels|]; [destruct (Accuracy.acc_cluster _ _ _)|];
    simpl; try (intros []; congruence);
    destruct (_ && _); intros [Heq | Heq]; try congruence;
    injection Heq as <- <-; simpl; auto.
Qed.

Lemma tick_break ite (st st' : state) (log : list event) :
  tick ite st = Break st' log ->
  0 < ite
  /\ delta_below tol
       (delta_label (map argmax (predict (model st) X)) (y_pred_last st))
     = true.
Proof.
  unfold Loop.tick. cbv zeta.
  destruct y as [labels|]; [destruct (Accuracy.acc_cluster _ _ _)|];
    simpl; try congruence;
    destruct (0 <? ite) eqn:Hite; simpl; try congruence;
    apply Nat.ltb_lt in Hite;
    destruct (delta_below _ _); try congruence; auto.
Qed.

(** What the training step keeps. *)
Lemma train_keeps (st st' : state) (log log' : list event) :
  train st log = Continue st' log' ->
  p st' = p st /\ y_pred_last st' = y_pred_last st.
Proof.
  unfold Loop.train. cbv zeta.
  destruct (gather X _); [|congruence].
  destruct (gather (p st) _); [|congruence].
  destruct (train_on_batch _ _ _) as [m' l'].
  intros [= <- <-]; simpl; auto.
Qed.

(** The loop is left only at a tick after the first, before the batch
    of that iteration is drawn. *)
Lemma iteration_break ite (st st' : state) (log : list event) :
  iteration ite st = Break st' log ->
  0 < ite /\ update_interval <> 0 /\ ite mod update_interval = 0
  /\ model st' = model st /\ trained log = []
  /\ delta_below tol
       (delta_label (map argmax (predict (model st) X)) (y_pred_last st))
     = true.
Proof.
  unfold Loop.iteration.
  destruct update_interval as [|u] eqn:Hu; [congruence|].
  destruct (Nat.eqb_spec (ite mod S u) 0) as [Hmod | Hmod].
  - destruct (tick ite st) as [st1 log1|st1 log1|] eqn:Htick;
      try congruence.
    + intros Hbr. by apply train_no_break in Hbr.
    + intros [= <- <-].
      destruct (tick_break _ _ _ _ Htick) as [Hpos Hdelta].
      destruct (tick_writes ite st st1 log1 (or_intror Htick))
        as (Hm & _ & _ & _ & Hlog).
      auto 10.
  - intros Hbr. by apply train_no_break in Hbr.
Qed.

Lemma loop_converged m s (st st' : state) (log log' : list event) :
  loop (seq s m) st log = (CONVERGED, st', log') ->
  exists ite,
    s <= ite < s + m /\ 0 < ite
    /\ update_interval <> 0 /\ ite mod update_interval = 0
    /\ length (trained log') = length (trained log) + (ite - s).
Proof.
  revert s st log. induction m as [|m IH]; intros s st log; simpl.
  { congruence. }
  destruct (iteration s st) as [st1 ev|st1 ev|] eqn:Hit; try congruence.
  - intros Hloop. apply IH in Hloop as (ite & Hr & Hpos & Hu & Hmod & Hlen).
    exists ite. split; [lia|]. split; [done|]. split; [done|].
    split; [done|].
    apply iteration_continue in Hit as [_ Hev].
    rewrite Hlen. unfold trained in *.
    rewrite omap_app, length_app, Hev. simpl. lia.
  - intros [= <- <-].
    apply iteration_break in Hit as (Hpos & Hu & Hmod & _ & Hev & _).
    exists s. split; [lia|]. split; [done|]. split; [done|].
    split; [done|].
    unfold trained in *. rewrite omap_app, length_app, Hev. simpl. lia.
Qed.

(** X7. A run that ends CONVERGED was stopped at an evaluation tick after
    the first one and before the batch of that iteration: the number of
    batches it trained on is a positive multiple of [update_interval],
    below [maxiter]. *)
Theorem converged_after_whole_intervals maxiter m0 labels
    (st' : state) (log' : list event) :
  run maxiter m0 labels = (CONVERGED, st', log') ->
  exists k,
    0 < k
    /\ length (trained log') = k * update_interval
    /\ k * update_interval < maxiter.
Proof.
  unfold Loop.run. intros (ite & Hr & Hpos & Hu & Hmod & Hlen)%loop_converged.
  simpl in Hlen. rewrite Nat.sub_0_r in Hlen.
  pose proof (Nat.div_mod_eq ite update_interval) as Hdiv.
  rewrite Hmod, Nat.add_0_r in Hdiv.
  exists (ite / update_interval). split; [|split].
  - destruct (ite / update_interval); lia.
  - lia.
  - lia.
Qed.

(** X8. A run of at most [update_interval] iterations has its only tick
    at iteration 0 and cannot end CONVERGED. *)
Theorem short_run_never_converges maxiter m0 labels :
  maxiter <= update_interval ->
  (run maxiter m0 labels).1.1 <> CONVERGED.
Proof.
  intros Hle Hout.
  destruct (run maxiter m0 labels) as [[out st'] log'] eqn:Hrun.
  simpl in Hout. subst out. unfold Loop.run in Hrun.
  apply loop_converged in Hrun as (ite & Hr & Hpos & Hu & Hmod & _).
  rewrite Nat.mod_small in Hmod by lia. lia.
Qed.

(** X9. At a tick after the first, if the hard labels of the new
    prediction are the labels of the previous tick, the batch is not
    empty, the tolerance is positive and the metrics can be computed,
    then the loop stops there, without training on a further batch. *)
Theorem unchanged_labels_stop_the_loop ite (st : state) :
  0 < ite -> update_interval <> 0 -> ite mod update_interval = 0 ->
  (0 < tol)%Q ->
  predict (model st) X <> [] ->
  map argmax (predict (model st) X) = y_pred_last st ->
  (forall l, y = Some l ->
     is_Some (Accuracy.acc_cluster linear_assignment l
                (map argmax (predict (model st) X)))) ->
  exists st' log,
    iteration ite st = Break st' log
    /\ model st' = model st /\ trained log = [].
Proof.
  intros Hpos Hu Hmod Htol Hne Hsame Hacc.
  assert (Hbelow : delta_below tol
            (delta_label (map argmax (predict (model st) X))
               (y_pred_last st)) = true).
  { rewrite <- Hsame.
    destruct (delta_label_spec (map argmax (predict (model st) X))
                (map argmax (predict (model st) X)))
      as (d & -> & _ & _ & Hz); [done| |].
    { intros Hnil%(f_equal length). rewrite length_map in Hnil.
      by destruct (predict (model st) X). }
    simpl. destruct (Qle_bool tol d) eqn:Hle; [|done].
    apply Qle_bool_iff in Hle. rewrite (proj2 Hz eq_refl) in Hle.
    exfalso. by apply (Qlt_not_le _ _ Htol). }
  assert (Htick : exists st' log, tick ite st = Break st' log).
  { unfold Loop.tick. cbv zeta. rewrite Hbelow.
    apply Nat.ltb_lt in Hpos. rewrite Hpos. simpl.
    destruct y as [l|].
    - destruct (Hacc l eq_refl) as [acc ->]. simpl. eauto.
    - simpl. eauto. }
  destruct Htick as (st' & log & Htick).
  exists st', log.
  destruct (tick_writes ite st st' log (or_intror Htick))
    as (Hm & _ & _ & _ & Hlog).
  split; [|by split].
  unfold Loop.iteration. destruct update_interval as [|u]; [done|].
  rewrite Hmod. simpl "=?". by rewrite Htick.
Qed.

(** X10. The two timescales of the loop: an iteration that is a tick
    replaces [p] by the sharpened prediction of the model as it is before
    the batch, and [y_pred_last] by its hard labels; any other iteration
    leaves both as they are. *)
Theorem targets_change_only_at_ticks ite (st st' : state)
    (log : list event) :
  iteration ite st = Continue st' log ->
  update_interval <> 0
  /\ (ite mod update_interval = 0 ->
      p st' = target_distribution (predict (model st) X)
      /\ y_pred_last st' = map argmax (predict (model st) X))
  /\ (ite mod update_interval <> 0 ->
      p st' = p st /\ y_pred_last st' = y_pred_last st).
Proof.
  unfold Loop.iteration.
  destruct update_interval as [|u] eqn:Hu; [congruence|].
  destruct (Nat.eqb_spec (ite mod S u) 0) as [Hmod | Hmod].
  - destruct (tick ite st) as [st1 log1|st1 log1|] eqn:Htick;
      try congruence.
    intros [Hp Hy]%train_keeps.
    destruct (tick_writes ite st st1 log1 (or_introl Htick))
      as (_ & _ & Hp1 & Hy1 & _).
    split; [done|]. split; [|done].
    intros _. by rewrite Hp, Hy, Hp1, Hy1.
  - intros [Hp Hy]%train_keeps. split; [done|]. split; [done|]. done.
Qed.

End WithModel.

End LoopStops.

(** ** Hard labels *)

Module HardLabels.
Import Loop RealFacts LayerR.

Local Open Scope R_scope.

Lemma argmax_fold_first_max (v pre t : list R) (best : nat) (top : R) :
  v = pre ++ t ->
  (best < length pre)%nat ->
  top = nth best v 0 ->
  (forall j, (j < length pre)%nat -> nth j v 0 <= top) ->
  (forall j, (j < best)%nat -> nth j v 0 < top) ->
  let c := (fold_left
              (fun (acc : nat * R * nat) (y : R) =>
                 let '(best, top, i) := acc in
                 if ltb top y then (i, y, S i) else (best, top, S i))
              t (best, top, length pre)).1.1 in
  (c < length v)%nat
  /\ (forall j, (j < length v)%nat -> nth j v 0 <= nth c v 0)
  /\ (forall j, (j < c)%nat -> nth j v 0 < nth c v 0).
Proof.
  revert pre best top. induction t as [|y t IH];
    intros pre best top Hv Hbest Htop Hle Hlt; simpl.
  { rewrite app_nil_r in Hv. subst pre. rewrite <- Htop. auto. }
  assert (Hv' : v = (pre ++ [y]) ++ t) by (by rewrite <- app_assoc).
  assert (Hy : nth (length pre) v 0 = y).
  { rewrite Hv, app_nth2, Nat.sub_diag by lia. done. }
  assert (Hlen : length (pre ++ [y]) = S (length pre))
    by (rewrite length_app; simpl; lia).
  unfold ltb, R_ordered. destruct (Rlt_dec top y) as [Hty | Hty].
  - rewrite <- Hlen. apply IH; try done.
    + lia.
    + intros j Hj. rewrite Hlen in Hj.
      destruct (decide (j = length pre)) as [-> | Hne]; [lra|].
      specialize (Hle j ltac:(lia)). lra.
    + intros j Hj. specialize (Hle j Hj). lra.
  - rewrite <- Hlen. apply IH; try done.
    + lia.
    + intros j Hj. rewrite Hlen in Hj.
      destruct (decide (j = length pre)) as [-> | Hne]; [lra|].
      apply Hle. lia.
Qed.

Lemma argmax_first_max_spec (v : vector R) :
  v <> [] ->
  (argmax v < length v)%nat
  /\ (forall j, (j < length v)%nat -> nth j v 0 <= nth (argmax v) v 0)
  /\ (forall j, (j < argmax v)%nat -> nth j v 0 < nth (argmax v) v 0).
Proof.
  intros Hne. destruct v as [|x t]; [done|]. unfold argmax.
  apply (argmax_fold_first_max (x :: t) [x] t 0%nat x); simpl; try done.
  - lia.
  - intros j Hj. replace j with 0%nat by lia. lra.
  - intros j Hj. lia.
Qed.

(** X12. Over the reals [argmax] returns the position of the first
    largest entry of a non-empty row: no entry is larger, and every
    earlier entry is strictly smaller. *)
Theorem argmax_is_first_maximum (v : vector R) :
  v <> [] ->
  (argmax v < length v)%nat
  /\ (forall j, (j < length v)%nat -> nth j v 0 <= nth (argmax v) v 0)
  /\ (forall j, (j < argmax v)%nat -> nth j v 0 < nth (argmax v) v 0).
Proof. apply argmax_first_max_spec. Qed.

Lemma argmax_is_first_maximum_witness :
  (argmax [1; 3; 2; 3]%R < 4)%nat
  /\ (forall j, (j < 4)%nat ->
        nth j [1; 3; 2; 3] 0 <= nth (argmax [1; 3; 2; 3]) [1; 3; 2; 3] 0).
Proof.
  destruct (argmax_is_first_maximum [1; 3; 2; 3]) as (H1 & H2 & _);
    [discriminate|].
  split; [exact H1 | exact H2].
Defined.

(** The kernel falls as the distance grows. *)
Lemma affinity_decreasing a mus (x mu1 mu2 : vector R) :
  0 < a -> sqdist x mu1 < sqdist x mu2 ->
  affinity {| alpha := a; clusters := mus |} x mu2
  < affinity {| alpha := a; clusters := mus |} x mu1.
Proof.
  intros Ha Hd. rewrite !affinity_unfold.
  pose proof (kernel_base_ge_1 a x mu1 Ha) as Hb1.
  pose proof (kernel_base_ge_1 a x mu2 Ha) as Hb2.
  apply Rlt_Rpower_l.
  - apply Rdiv_lt_0_compat; lra.
  - split.
    + apply Rdiv_lt_0_compat; lra.
    + unfold Rdiv. rewrite !Rmult_1_l.
      apply Rinv_0_lt_contravar; [lra|].
      apply Rplus_lt_compat_l. unfold Rdiv.
      apply Rmult_lt_compat_r; [by apply Rinv_0_lt_compat | done].
Qed.

Lemma call_entry a (mus inputs : matrix R) i j :
  (i < length inputs)%nat -> (j < length mus)%nat ->
  nth j (nth i (call {| alpha := a; clusters := mus |} inputs) []) 0
  = affinity {| alpha := a; clusters := mus |} (nth i inputs [])
      (nth j mus [])
    / Rsum (map (affinity {| alpha := a; clusters := mus |} (nth i inputs []))
              mus).
Proof.
  intros Hi Hj. rewrite call_rowwise.
  rewrite (nth_map_in _ _ _ _ []) by done. cbv zeta.
  rewrite (nth_map_in _ _ _ _ 0) by (by rewrite length_map).
  by rewrite (nth_map_in _ _ _ _ []).
Qed.

Lemma call_entry_decreasing a (mus inputs : matrix R) i j1 j2 :
  0 < a ->
  (i < length inputs)%nat -> (j1 < length mus)%nat ->
  (j2 < length mus)%nat ->
  sqdist (nth i inputs []) (nth j1 mus [])
  < sqdist (nth i inputs []) (nth j2 mus []) ->
  nth j2 (nth i (call {| alpha := a; clusters := mus |} inputs) []) 0
  < nth j1 (nth i (call {| alpha := a; clusters := mus |} inputs) []) 0.
Proof.
  intros Ha Hi Hj1 Hj2 Hd. rewrite !call_entry by done.
  assert (Hne : mus <> []) by (destruct mus; simpl in *; [lia | done]).
  pose proof (affinity_row_sum_pos a mus (nth i inputs []) Ha Hne) as Hpos.
  unfold Rdiv. apply Rmult_lt_compat_r; [by apply Rinv_0_lt_compat|].
  by apply affinity_decreasing.
Qed.

(** X13. Within the soft assignment of one sample, a strictly nearer
    centre has a strictly larger probability. *)
Theorem nearer_centre_is_more_probable a (mus inputs : matrix R) i j1 j2 :
  0 < a ->
  (i < length inputs)%nat -> (j1 < length mus)%nat ->
  (j2 < length mus)%nat ->
  sqdist (nth i inputs []) (nth j1 mus [])
  < sqdist (nth i inputs []) (nth j2 mus []) ->
  nth j2 (nth i (call {| alpha := a; clusters := mus |} inputs) []) 0
  < nth j1 (nth i (call {| alpha := a; clusters := mus |} inputs) []) 0.
Proof. apply call_entry_decreasing. Qed.

Lemma nearer_centre_is_more_probable_witness :
  nth 1 (nth 0 (call {| alpha := 1; clusters := [[0; 0]; [1; 0]] |}
                  [[0; 0]]) []) 0
  < nth 0 (nth 0 (call {| alpha := 1; clusters := [[0; 0]; [1; 0]] |}
                    [[0; 0]]) []) 0.
Proof.
  apply (nearer_centre_is_more_probable 1 _ _ 0 0 1); simpl; try lia; try lra.
  unfold sqdist, vsum. simpl. lra.
Defined.

(** X14. The hard label of a sample is a nearest centre: no centre is
    nearer to the sample than the one [argmax] picks from its row of the
    soft assignment. *)
Theorem hard_label_is_a_nearest_centre a (mus inputs : matrix R) i j :
  0 < a ->
  (i < length inputs)%nat -> (j < length mus)%nat ->
  sqdist (nth i inputs [])
    (nth (argmax (nth i (call {| alpha := a; clusters := mus |} inputs) []))
         mus [])
  <= sqdist (nth i inputs []) (nth j mus []).
Proof.
  intros Ha Hi Hj.
  pose proof (call_shaped a mus inputs) as Hshape.
  set (row := nth i (call {| alpha := a; clusters := mus |} inputs) []).
  assert (Hrow : length row = length mus).
  { apply (shaped_rows _ _ _ _ Hshape), nth_In.
    destruct Hshape as [-> _]. done. }
  destruct (argmax_first_max_spec row) as (Hc & Hmax & _).
  { intros Hnil. rewrite Hnil in Hrow. simpl in Hrow. lia. }
  rewrite Hrow in Hc, Hmax.
  destruct (Rle_lt_dec
              (sqdist (nth i inputs []) (nth (argmax row) mus []))
              (sqdist (nth i inputs []) (nth j mus []))) as [|Hlt]; [done|].
  pose proof (call_entry_decreasing a mus inputs i j (argmax row)
                Ha Hi Hj Hc Hlt) as Hq.
  specialize (Hmax j Hj). fold row in Hq. lra.
Qed.

Lemma hard_label_is_a_nearest_centre_witness :
  sqdist [0; 0]
    (nth (argmax (nth 0 (call {| alpha := 1; clusters := [[1; 0]; [0; 0]] |}
                           [[0; 0]]) []))
         [[1; 0]; [0; 0]] [])
  <= sqdist [0; 0] [0; 0].
Proof.
  apply (hard_label_is_a_nearest_centre 1 [[1; 0]; [0; 0]] [[0; 0]] 0 1);
    simpl; try lia; lra.
Defined.

(** X15. With a single cluster every sample is assigned to it with
    probability 1, wherever the centre is. *)
Theorem single_cluster_gets_everything a (mu : vector R) (inputs : matrix R) :
  0 < a ->
  call {| alpha := a; clusters := [mu] |} inputs
  = map (fun _ => [1]) inputs.
Proof.
  intros Ha. rewrite call_rowwise. apply map_ext. intros x. cbv zeta.
  simpl. f_equal.
  pose proof (affinity_range a [mu] x mu Ha). field. lra.
Qed.

Lemma single_cluster_gets_everything_witness :
  call {| alpha := 1; clusters := [[5; 5]] |} [[0; 0]; [1; 2]]
  = [[1]; [1]].
Proof. apply (single_cluster_gets_everything 1). lra. Defined.

End HardLabels.

(** *** The small run, continued *)

Module ToyStops.
Import Loop ToyStep.

Lemma converged_after_whole_intervals_witness :
  exists k,
    0 < k
    /\ length (trained (Toy.run 2 200).2) = k * default_update_interval
    /\ k * default_update_interval < 200.
Proof.
  apply (LoopStops.converged_after_whole_intervals unit nat unit
           Toy.predict Toy.train_on_batch
           Accuracy.exhaustive_assignment Toy.metric Toy.metric
           (fun l => l) Toy.X (Some [0; 0; 0; 0]) 2
           default_update_interval default_tol 200 tt [0; 0; 0; 0]
           (Toy.run 2 200).1.2).
  vm_compute. reflexivity.
Defined.

Lemma short_run_never_converges_witness :
  3 <= default_update_interval /\ (Toy.run 2 3).1.1 <> CONVERGED.
Proof.
  split; [unfold default_update_interval; lia|].
  apply (LoopStops.short_run_never_converges unit nat unit
           Toy.predict Toy.train_on_batch
           Accuracy.exhaustive_assignment Toy.metric Toy.metric
           (fun l => l) Toy.X (Some [0; 0; 0; 0]) 2
           default_update_interval default_tol 3 tt [0; 0; 0; 0]).
  unfold default_update_interval. lia.
Defined.

Lemma unchanged_labels_stop_the_loop_witness :
  exists st' log,
    ToyStep.iteration 140 start = Break st' log
    /\ model st' = model start /\ trained log = [].
Proof.
  apply (LoopStops.unchanged_labels_stop_the_loop unit nat unit
           Toy.predict Toy.train_on_batch
           Accuracy.exhaustive_assignment Toy.metric Toy.metric
           (fun l => l) Toy.X (Some [0; 0; 0; 0]) 2
           default_update_interval default_tol 140 start).
  - lia.
  - discriminate.
  - reflexivity.
  - reflexivity.
  - discriminate.
  - reflexivity.
  - intros l [= <-]. by eexists.
Defined.

Lemma targets_change_only_at_ticks_witness :
  exists st' : state (A:=F32.f32) unit,
    default_update_interval <> 0
    /\ (0 mod default_update_interval = 0 ->
        p st' = target_distribution (Toy.predict tt Toy.X)
        /\ y_pred_last st' = map argmax (Toy.predict tt Toy.X))
    /\ (0 mod default_update_interval <> 0 ->
        p st' = p start /\ y_pred_last st' = y_pred_last start).
Proof.
  eexists.
  eapply (LoopStops.targets_change_only_at_ticks unit nat unit
            Toy.predict Toy.train_on_batch
            Accuracy.exhaustive_assignment Toy.metric Toy.metric
            (fun l => l) Toy.X (Some [0; 0; 0; 0]) 2
            default_update_interval default_tol 0 start).
  vm_compute. reflexivity.
Defined.

End ToyStops.

(** ** The sharpener in binary32: one NaN *)

Module SharpenerNaN.
Import F32 SharpenerF32.

(** X17. In binary32 one NaN anywhere in [q] spoils everything: the sum
    of its column is NaN, so that column of the weights is NaN in every
    row, so every row sum is NaN, and every entry of the result is NaN. *)
Theorem one_nan_spoils_every_entry n k (q : matrix f32) i j :
  shaped n k q -> i < n -> j < k ->
  nth j (nth i q []) pzero = nan ->
  target_distribution q = replicate n (replicate k nan).
Proof.
  intros Hq Hi Hj Hnan. pose proof Hq as [Hn _].
  assert (Hcol : colsum q j = nan).
  { unfold colsum. apply vsum_In_nan. apply in_map_iff.
    exists (nth i q []). split; [done|]. apply nth_In. lia. }
  assert (Hw : forall row, In nan (weight_row (colsum q) k row)).
  { intros row. unfold weight_row. apply in_map_iff. exists j.
    split; [|apply in_seq; lia]. rewrite Hcol. apply fdiv_nan_r. }
  rewrite (target_distribution_rowwise n k q Hq).
  rewrite <- Hn. apply map_constant. intros row _. cbv zeta.
  rewrite (vsum_In_nan _ (Hw row)).
  rewrite (map_constant _ nan).
  - unfold weight_row. by rewrite length_map, length_seq.
  - intros x _. apply fdiv_nan_r.
Qed.

Lemma one_nan_spoils_every_entry_witness :
  target_distribution [[fone; pzero]; [nan; fone]]
  = replicate 2 (replicate 2 nan).
Proof.
  apply (one_nan_spoils_every_entry 2 2 _ 1 0).
  - split; [reflexivity | repeat constructor].
  - lia.
  - lia.
  - reflexivity.
Defined.

End SharpenerNaN.

(** ** The sharpener over the reals, continued *)

Module SharpenerAlgebra.
Import RealFacts.
Local Open Scope R_scope.

Lemma colsum_nonneg (q : matrix R) j :
  stochastic q -> 0 <= colsum q j.
Proof.
  intros Hst. unfold colsum. rewrite vsum_Rsum.
  apply Rsum_nonneg, Forall_map. eapply Forall_impl; [exact Hst|].
  intros row [Hnn _]. simpl. change (@zero R R_scalar) with 0.
  destruct (nth_in_or_default j row 0) as [Hin | ->]; [|lra].
  rewrite Forall_forall in Hnn. by apply Hnn, list_elem_of_In.
Qed.

Lemma weight_entry (f : nat -> R) k (row : vector R) j :
  (j < k)%nat ->
  nth j (weight_row f k row) 0 = nth j row 0 * nth j row 0 / f j.
Proof. intros Hj. unfold weight_row. by rewrite nth_map_seq. Qed.

(** The normaliser of a row of weights is positive when the row of [q]
    sums to 1 and every column has positive mass. *)
Lemma weight_sum_pos k (f : nat -> R) (row : vector R) :
  length row = k ->
  Forall (fun x => 0 <= x) row -> Rsum row = 1 ->
  (forall j, (j < k)%nat -> 0 < f j) ->
  0 < Rsum (weight_row f k row).
Proof.
  intros Hlen Hnn Hsum Hf.
  destruct (Rsum_pos_inv row Hnn) as (x & Hx & Hx0); [lra|].
  apply In_nth with (d := 0) in Hx as (j & Hj & Hnth).
  rewrite Hlen in Hj.
  apply (Rsum_pos_In _ (x * x / f j)).
  - unfold weight_row. apply Forall_map, Forall_seq. intros i Hi. simpl.
    change (0 <= nth i row 0 * nth i row 0 / f i).
    apply Rmult_le_pos; [nra|].
    apply Rlt_le, Rinv_0_lt_compat, Hf. lia.
  - unfold weight_row. apply in_map_iff. exists j.
    split; [simpl; by rewrite Hnth | apply in_seq; lia].
  - apply Rmult_lt_0_compat; [nra|]. by apply Rinv_0_lt_compat, Hf.
Qed.

Lemma sharpened_entry n k (q : matrix R) i j :
  shaped n k q -> (i < n)%nat -> (j < k)%nat ->
  nth j (nth i (target_distribution q) []) 0
  = nth j (nth i q []) 0 * nth j (nth i q []) 0 / colsum q j
    / Rsum (weight_row (colsum q) k (nth i q [])).
Proof.
  intros Hq Hi Hj. pose proof Hq as [Hn _].
  rewrite (target_distribution_rowwise n k q Hq).
  rewrite (nth_map_in _ _ _ _ []) by lia. cbv zeta.
  rewrite (nth_map_in _ _ _ _ 0)
    by (unfold weight_row; by rewrite length_map, length_seq).
  by rewrite weight_entry, vsum_Rsum.
Qed.

Lemma stochastic_row n k (q : matrix R) i :
  shaped n k q -> stochastic q -> (i < n)%nat ->
  length (nth i q []) = k
  /\ Forall (fun x => 0 <= x) (nth i q [])
  /\ Rsum (nth i q []) = 1.
Proof.
  intros Hq Hst Hi. pose proof Hq as [Hn _].
  assert (Hin : In (nth i q []) q) by (apply nth_In; lia).
  split; [by apply (shaped_rows n k q)|].
  unfold stochastic in Hst. rewrite Forall_forall in Hst.
  destruct (Hst _ (proj2 (list_elem_of_In _ _) Hin)) as [Hnn Hsum].
  by rewrite vsum_Rsum in Hsum.
Qed.

(** X16. Over the reals, for a soft assignment with rows that sum to 1
    and columns of positive mass [f], the two transpositions and the two
    broadcasts of [target_distribution] come to this: entry [(i, j)] of
    the result is [q_ij ** 2 / f_j] divided by the sum over [j'] of
    [q_ij' ** 2 / f_j'], and neither divisor is zero. *)
Theorem target_distribution_entry n k (q : matrix R) i j :
  shaped n k q -> stochastic q ->
  (forall c, (c < k)%nat -> 0 < colsum q c) ->
  (i < n)%nat -> (j < k)%nat ->
  0 < colsum q j
  /\ 0 < Rsum (map (fun j' => nth j' (nth i q []) 0 * nth j' (nth i q []) 0
                              / colsum q j')
                   (seq 0 k))
  /\ nth j (nth i (target_distribution q) []) 0
     = nth j (nth i q []) 0 * nth j (nth i q []) 0 / colsum q j
       / Rsum (map (fun j' => nth j' (nth i q []) 0 * nth j' (nth i q []) 0
                              / colsum q j')
                   (seq 0 k)).
Proof.
  intros Hq Hst Hcol Hi Hj.
  destruct (stochastic_row n k q i Hq Hst Hi) as (Hlen & Hnn & Hsum).
  split; [by apply Hcol|]. split.
  - exact (weight_sum_pos k (colsum q) _ Hlen Hnn Hsum Hcol).
  - exact (sharpened_entry n k q i j Hq Hi Hj).
Qed.

Lemma target_distribution_entry_witness :
  nth 1 (nth 0 (target_distribution [[3/5; 2/5]; [2/5; 3/5]]) []) 0
  = 2/5 * (2/5) / colsum [[3/5; 2/5]; [2/5; 3/5]] 1
    / Rsum (map (fun j' => nth j' [3/5; 2/5] 0 * nth j' [3/5; 2/5] 0
                           / colsum [[3/5; 2/5]; [2/5; 3/5]] j')
                (seq 0 2)).
Proof.
  apply (target_distribution_entry 2 2 [[3/5; 2/5]; [2/5; 3/5]] 0 1).
  - split; [reflexivity | repeat constructor].
  - stochastic_rows.
  - intros c Hc. unfold colsum, vsum.
    destruct c as [|[|c]]; simpl; [lra | lra | lia].
  - lia.
  - lia.
Defined.

(** X18. Sharpening squares the odds and reweights them by the cluster
    masses: for two clusters [j], [l] of one sample,
    [p_ij * (q_il^2 * f_j) = p_il * (q_ij^2 * f_l)], where [f] are the
    column sums of [q]. *)
Theorem sharpening_squares_the_odds n k (q : matrix R) i j l :
  shaped n k q -> stochastic q ->
  (forall c, (c < k)%nat -> 0 < colsum q c) ->
  (i < n)%nat -> (j < k)%nat -> (l < k)%nat ->
  nth j (nth i (target_distribution q) []) 0
    * (nth l (nth i q []) 0 * nth l (nth i q []) 0 * colsum q j)
  = nth l (nth i (target_distribution q) []) 0
    * (nth j (nth i q []) 0 * nth j (nth i q []) 0 * colsum q l).
Proof.
  intros Hq Hst Hcol Hi Hj Hl.
  destruct (stochastic_row n k q i Hq Hst Hi) as (Hlen & Hnn & Hsum).
  pose proof (weight_sum_pos k (colsum q) _ Hlen Hnn Hsum Hcol) as Hpos.
  pose proof (Hcol j Hj). pose proof (Hcol l Hl).
  rewrite !(sharpened_entry n k) by done. field. lra.
Qed.

(** X19. Sharpening keeps the support of every sample: an entry of the
    result is 0 exactly where the entry of [q] is 0, and positive
    exactly where that one is positive. *)
Theorem sharpening_keeps_the_support n k (q : matrix R) i j :
  shaped n k q -> stochastic q ->
  (forall c, (c < k)%nat -> 0 < colsum q c) ->
  (i < n)%nat -> (j < k)%nat ->
  (nth j (nth i (target_distribution q) []) 0 = 0
   <-> nth j (nth i q []) 0 = 0)
  /\ (0 < nth j (nth i (target_distribution q) []) 0
      <-> 0 < nth j (nth i q []) 0).
Proof.
  intros Hq Hst Hcol Hi Hj.
  destruct (stochastic_row n k q i Hq Hst Hi) as (Hlen & Hnn & Hsum).
  pose proof (weight_sum_pos k (colsum q) _ Hlen Hnn Hsum Hcol) as Hpos.
  pose proof (Hcol j Hj) as Hf.
  assert (Hx : 0 <= nth j (nth i q []) 0).
  { rewrite Forall_forall in Hnn. apply Hnn, list_elem_of_In, nth_In. lia. }
  rewrite (sharpened_entry n k) by done.
  set (x := nth j (nth i q []) 0) in *.
  set (S := Rsum (weight_row (colsum q) k (nth i q []))) in *.
  assert (Hscale : 0 < / colsum q j * / S).
  { apply Rmult_lt_0_compat; by apply Rinv_0_lt_compat. }
  replace (x * x / colsum q j / S) with (x * x * (/ colsum q j * / S))
    by (unfold Rdiv; ring).
  split; split; intros Hyp.
  - destruct (Rmult_integral _ _ Hyp) as [Hxx | Hz]; [nra | lra].
  - rewrite Hyp. ring.
  - destruct Hx as [Hx | <-]; [done|].
    rewrite !Rmult_0_l in Hyp. lra.
  - apply Rmult_lt_0_compat; [nra | done].
Qed.

Lemma sharpening_squares_the_odds_witness :
  nth 0 (nth 0 (target_distribution [[3/5; 2/5]; [2/5; 3/5]]) []) 0
    * (2/5 * (2/5) * colsum [[3/5; 2/5]; [2/5; 3/5]] 0)
  = nth 1 (nth 0 (target_distribution [[3/5; 2/5]; [2/5; 3/5]]) []) 0
    * (3/5 * (3/5) * colsum [[3/5; 2/5]; [2/5; 3/5]] 1).
Proof.
  apply (sharpening_squares_the_odds 2 2 [[3/5; 2/5]; [2/5; 3/5]] 0 0 1).
  - split; [reflexivity | repeat constructor].
  - stochastic_rows.
  - intros c Hc. unfold colsum, vsum.
    destruct c as [|[|c]]; simpl; [lra | lra | lia].
  - lia.
  - lia.
  - lia.
Defined.

Lemma sharpening_keeps_the_support_witness :
  nth 1 (nth 0 (target_distribution [[1; 0]; [1/2; 1/2]]) []) 0 = 0
  <-> nth 1 [1; 0] 0 = 0.
Proof.
  apply (sharpening_keeps_the_support 2 2 [[1; 0]; [1/2; 1/2]] 0 1).
  - split; [reflexivity | repeat constructor].
  - stochastic_rows.
  - intros c Hc. unfold colsum, vsum.
    destruct c as [|[|c]]; simpl; [lra | lra | lia].
  - lia.
  - lia.
Defined.

Lemma Rsum_replicate n c : Rsum (replicate n c) = INR n * c.
Proof.
  induction n as [|n IH]; [simpl; ring|].
  rewrite S_INR. cbn [replicate Rsum fold_right].
  change (fold_right Rplus 0 (replicate n c)) with (Rsum (replicate n c)).
  rewrite IH. ring.
Qed.

Lemma colsum_replicate n (r : vector R) j :
  colsum (replicate n r) j = INR n * nth j r 0.
Proof.
  unfold colsum. rewrite vsum_Rsum.
  replace (map (fun row : vector R => nth j row zero) (replicate n r))
    with (replicate n (nth j r 0)); [apply Rsum_replicate|].
  induction n as [|n IH]; simpl; [done|]. by rewrite IH.
Qed.

Lemma Rsum_map_scale c l : Rsum (map (Rmult c) l) = c * Rsum l.
Proof. induction l as [|x l IH]; simpl; [ring|]. rewrite IH. ring. Qed.

(** X20. When all samples have one and the same distribution over the
    clusters, with every cluster possible, sharpening changes nothing:
    such a soft assignment, the uniform one among them, is a fixed point
    of [target_distribution], and no division on the way is by zero. *)
Theorem identical_rows_are_a_fixed_point n (r : vector R) :
  (0 < n)%nat -> Forall (fun x => 0 < x) r -> Rsum r = 1 ->
  (forall j, (j < length r)%nat -> 0 < colsum (replicate n r) j)
  /\ 0 < Rsum (weight_row (colsum (replicate n r)) (length r) r)
  /\ target_distribution (replicate n r) = replicate n r.
Proof.
  intros Hn Hr Hsum.
  assert (HN : 0 < INR n) by (apply lt_0_INR; lia).
  assert (Hrj : forall j, (j < length r)%nat -> 0 < nth j r 0).
  { intros j Hj. rewrite Forall_forall in Hr.
    by apply Hr, list_elem_of_In, nth_In. }
  assert (Hw : weight_row (colsum (replicate n r)) (length r) r
               = map (fun x => x / INR n) r).
  { transitivity (map (fun x => x / INR n)
                      (map (fun j => nth j r zero) (seq 0 (length r))));
      [|by rewrite <- (row_as_map (length r) r eq_refl)].
    unfold weight_row. rewrite map_map. apply map_ext_in.
    intros j Hj%in_seq. rewrite colsum_replicate.
    pose proof (Hrj j ltac:(lia)). simpl. field. lra. }
  split; [|split].
  - intros j Hj. rewrite colsum_replicate.
    apply Rmult_lt_0_compat; auto.
  - rewrite Hw, Rsum_map_div, Hsum. apply Rdiv_lt_0_compat; lra.
  - rewrite (target_distribution_rowwise n (length r)).
    + rewrite <- (map_id (replicate n r)) at 2. apply map_ext_in.
      intros row Hrow. cbv zeta.
      assert (row = r) as ->.
      { apply list_elem_of_In, elem_of_replicate in Hrow. by destruct Hrow. }
      rewrite Hw, vsum_Rsum, Rsum_map_div, Hsum, map_map.
      rewrite <- (map_id r) at 2. apply map_ext. intros x. simpl.
      field. lra.
    + split; [by rewrite length_replicate|]. by apply Forall_replicate.
Qed.

(** The uniform assignment of three samples to two clusters. *)
Lemma identical_rows_are_a_fixed_point_witness :
  target_distribution (replicate 3 [/2; /2]) = replicate 3 [/2; /2].
Proof.
  apply (identical_rows_are_a_fixed_point 3 [/2; /2]).
  - lia.
  - repeat (apply Forall_cons_2; [lra|]). apply Forall_nil_2.
  - simpl. lra.
Defined.

(** X21. [target_distribution] does not depend on the scale of [q]:
    multiplying every entry of a soft assignment by one positive factor
    leaves the result as it is. *)
Theorem sharpening_ignores_the_scale n k (q : matrix R) c :
  shaped n k q -> stochastic q ->
  (forall j, (j < k)%nat -> 0 < colsum q j) ->
  0 < c ->
  target_distribution (map (map (Rmult c)) q) = target_distribution q.
Proof.
  intros Hq Hst Hcol Hc.
  assert (Hq' : shaped n k (map (map (Rmult c)) q)).
  { apply (shaped_map n k k); [done|]. intros row Hrow.
    by rewrite length_map. }
  assert (Hcs : forall j, colsum (map (map (Rmult c)) q) j = c * colsum q j).
  { intros j. unfold colsum. rewrite !vsum_Rsum, map_map.
    rewrite <- Rsum_map_scale, map_map. f_equal. apply map_ext.
    intros row. change (@zero R R_scalar) with 0.
    rewrite <- (Rmult_0_r c) at 1. apply map_nth. }
  rewrite (target_distribution_rowwise n k _ Hq').
  rewrite (target_distribution_rowwise n k _ Hq).
  rewrite map_map. apply map_ext_in. intros row Hrow. cbv zeta.
  assert (Hlen : length row = k) by (by apply (shaped_rows n k q)).
  unfold stochastic in Hst. rewrite Forall_forall in Hst.
  destruct (Hst row (proj2 (list_elem_of_In _ _) Hrow)) as [Hnn Hsum].
  rewrite vsum_Rsum in Hsum.
  pose proof (weight_sum_pos k (colsum q) row Hlen Hnn Hsum Hcol) as Hpos.
  assert (Hw : weight_row (colsum (map (map (Rmult c)) q)) k
                 (map (Rmult c) row)
               = map (Rmult c) (weight_row (colsum q) k row)).
  { unfold weight_row. rewrite map_map. apply map_ext_in.
    intros j Hj%in_seq. rewrite Hcs.
    change (@zero R R_scalar) with 0.
    replace (nth j (map (Rmult c) row) 0) with (c * nth j row 0)
      by (rewrite <- (Rmult_0_r c) at 2; symmetry; apply map_nth).
    pose proof (Hcol j ltac:(lia)). simpl. field. lra. }
  rewrite Hw, !vsum_Rsum, Rsum_map_scale, map_map.
  apply map_ext. intros x. simpl. field. lra.
Qed.

Lemma sharpening_ignores_the_scale_witness :
  target_distribution (map (map (Rmult 2)) [[3/5; 2/5]; [2/5; 3/5]])
  = target_distribution [[3/5; 2/5]; [2/5; 3/5]].
Proof.
  apply (sharpening_ignores_the_scale 2 2).
  - split; [reflexivity | repeat constructor].
  - stochastic_rows.
  - intros c Hc. unfold colsum, vsum.
    destruct c as [|[|c]]; simpl; [lra | lra | lia].
  - lra.
Defined.

End SharpenerAlgebra.

(** ** Clustering accuracy, continued *)

Module AccuracyBounds.
Import Accuracy AccuracyFacts.

Lemma entry_zeros d a b : entry (zeros d) a b = 0%Z.
Proof.
  unfold zeros. rewrite entry_lookup.
  destruct (decide (a < d)) as [Ha | Ha].
  - rewrite lookup_replicate_2 by done. simpl.
    destruct (decide (b < d)) as [Hb | Hb].
    + by rewrite lookup_replicate_2.
    + by rewrite (proj1 (lookup_replicate_None _ _ _)) by lia.
  - by rewrite (proj1 (lookup_replicate_None _ _ _)) by lia.
Qed.

Lemma fold_incr_square d (l : list (nat * nat)) w :
  square_matrix d w ->
  square_matrix d (fold_left (fun w ij => incr w ij.1 ij.2) l w).
Proof.
  revert w. induction l as [|ij l IH]; intros w Hw; simpl; [done|].
  by apply IH, incr_square.
Qed.

Lemma fold_incr_entry d (l : list (nat * nat)) w a b :
  square_matrix d w ->
  Forall (fun ij => ij.1 < d /\ ij.2 < d) l ->
  entry (fold_left (fun w ij => incr w ij.1 ij.2) l w) a b
  = (entry w a b
     + Z.of_nat (length (filter (fun ij => ij = (a, b)) l)))%Z.
Proof.
  intros Hw Hl. revert w Hw.
  induction Hl as [|[i j] l [Hi Hj] Hl IH]; intros w Hw; simpl.
  { lia. }
  rewrite IH by (by apply incr_square). rewrite (entry_incr d) by done.
  rewrite filter_cons. simpl in *.
  destruct (decide ((i, j) = (a, b))) as [[= -> ->] | Hne].
  - rewrite decide_True by done. simpl. lia.
  - rewrite decide_False by (intros [-> ->]; by apply Hne). lia.
Qed.

Lemma pairs_in_range d y_pred y_true :
  Forall (fun a => a < d) y_pred -> Forall (fun b => b < d) y_true ->
  Forall (fun ij : nat * nat => ij.1 < d /\ ij.2 < d) (zip y_pred y_true).
Proof.
  intros Hp. revert y_true.
  induction Hp as [|a y_pred Ha Hp IH]; intros y_true Ht; [constructor|].
  destruct Ht as [|b y_true Hb Ht]; [constructor|].
  cbn [zip zip_with]. constructor; [done|]. by apply IH.
Qed.

Lemma contingency_entry_count d y_pred y_true a b :
  Forall (fun i => i < d) y_pred -> Forall (fun j => j < d) y_true ->
  entry (contingency d y_pred y_true) a b
  = Z.of_nat (length (filter (fun ij => ij = (a, b)) (zip y_pred y_true))).
Proof.
  intros Hp Ht. unfold contingency.
  rewrite (fold_incr_entry d) by (apply zeros_square || by apply pairs_in_range).
  rewrite entry_zeros. lia.
Qed.

(** X22. The loop over the samples leaves in [w] a [D] x [D] matrix of
    counts: [w[a, b]] is the number of samples predicted in cluster [a]
    whose true label is [b]. *)
Theorem contingency_counts_pairs d y_pred y_true a b :
  Forall (fun i => i < d) y_pred -> Forall (fun j => j < d) y_true ->
  square_matrix d (contingency d y_pred y_true)
  /\ entry (contingency d y_pred y_true) a b
     = Z.of_nat (length (filter (fun ij => ij = (a, b))
                                (zip y_pred y_true))).
Proof.
  intros Hp Ht. split; [apply contingency_square|].
  by apply contingency_entry_count.
Qed.

Lemma contingency_counts_pairs_witness :
  entry (contingency 2 [0; 1; 1; 1] [0; 0; 1; 1]) 1 1 = 2%Z.
Proof.
  destruct (contingency_counts_pairs 2 [0; 1; 1; 1] [0; 0; 1; 1] 1 1)
    as [_ Hentry]; [repeat constructor | repeat constructor |].
  exact Hentry.
Defined.

Lemma square_matrix_ext d w w' :
  square_matrix d w -> square_matrix d w' ->
  (forall a b, a < d -> b < d -> entry w a b = entry w' a b) ->
  w = w'.
Proof.
  intros [Hlen Hrows] [Hlen' Hrows'] Hext.
  rewrite Forall_forall in Hrows, Hrows'.
  apply (nth_ext _ _ [] []); [congruence|].
  intros a Ha. rewrite Hlen in Ha.
  assert (Hra : length (nth a w []) = d).
  { apply Hrows, list_elem_of_In, nth_In. lia. }
  assert (Hra' : length (nth a w' []) = d).
  { apply Hrows', list_elem_of_In, nth_In. lia. }
  apply (nth_ext _ _ 0%Z 0%Z); [congruence|].
  intros b Hb. rewrite Hra in Hb. by apply Hext.
Qed.

(** X23. The accuracy does not depend on the order of the samples,
    whatever solver [linear_assignment] is: the same pairs of predicted
    and true label in another order give the same contingency matrix and
    the same result. *)
Theorem acc_cluster_ignores_sample_order
    (solver : imatrix -> list nat * list nat)
    (samples samples' : list (nat * nat)) :
  samples ≡ₚ samples' ->
  acc_cluster solver (samples.*2) (samples.*1)
  = acc_cluster solver (samples'.*2) (samples'.*1).
Proof.
  intros Hperm. unfold acc_cluster. rewrite !length_fmap.
  rewrite !decide_True by done.
  destruct samples as [|s0 samples0] eqn:Hs.
  { apply Permutation_nil in Hperm. by subst samples'. }
  destruct samples' as [|s0' samples0'] eqn:Hs'.
  { symmetry in Hperm. by apply Permutation_nil in Hperm. }
  rewrite <- Hs, <- Hs' in *.
  assert (Hm1 : max_list (samples.*1) = max_list (samples'.*1))
    by (by rewrite Hperm).
  assert (Hm2 : max_list (samples.*2) = max_list (samples'.*2))
    by (by rewrite Hperm).
  assert (Hlen : length samples = length samples')
    by (by apply Permutation_length).
  replace (samples.*1) with (s0.1 :: samples0.*1) at 1 by (by rewrite Hs).
  replace (samples'.*1) with (s0'.1 :: samples0'.*1) at 1 by (by rewrite Hs').
  cbv zeta. rewrite ?length_fmap, <- Hm1, <- Hm2, <- Hlen.
  set (D := Nat.max (max_list (samples.*1)) (max_list (samples.*2)) + 1).
  assert (Hw : contingency D (samples.*1) (samples.*2)
               = contingency D (samples'.*1) (samples'.*2)).
  { destruct (labels_below_D (samples.*1) (samples.*2)) as [Hp Ht].
    fold D in Hp, Ht.
    assert (Hp' : Forall (fun a => a < D) (samples'.*1)) by (by rewrite <- Hperm).
    assert (Ht' : Forall (fun a => a < D) (samples'.*2)) by (by rewrite <- Hperm).
    apply (square_matrix_ext D); try apply contingency_square.
    intros a b _ _.
    rewrite (contingency_entry_count D _ _ a b Hp Ht).
    rewrite (contingency_entry_count D _ _ a b Hp' Ht').
    rewrite !zip_fst_snd. by rewrite Hperm. }
  by rewrite Hw.
Qed.

Lemma acc_cluster_ignores_sample_order_witness :
  acc_cluster exhaustive_assignment ([(1, 0); (0, 1); (1, 0)].*2)
    ([(1, 0); (0, 1); (1, 0)].*1)
  = acc_cluster exhaustive_assignment ([(0, 1); (1, 0); (1, 0)].*2)
      ([(0, 1); (1, 0); (1, 0)].*1).
Proof.
  apply acc_cluster_ignores_sample_order. apply perm_swap.
Defined.

End AccuracyBounds.

(** *** Under an exact solver *)

Module AccuracyValue.
Import Accuracy AccuracyFacts CountFraction.

Lemma count_fraction_mono (c1 c2 n : nat) :
  0 < n -> c1 <= c2 ->
  (inject_Z (Z.of_nat c1) / inject_Z (Z.of_nat n)
   <= inject_Z (Z.of_nat c2) / inject_Z (Z.of_nat n))%Q.
Proof.
  intros Hn Hle. destruct n as [|n]; [lia|].
  unfold Qdiv, Qinv, Qmult, Qle, inject_Z. simpl. nia.
Qed.

Lemma agreements_le_length sigma y_pred y_true :
  agreements sigma y_pred y_true <= length y_pred.
Proof.
  unfold agreements. etransitivity; [apply length_filter|].
  rewrite length_zip. lia.
Qed.

Lemma agreements_identity y_true :
  agreements (fun a => a) y_true y_true = length y_true.
Proof.
  induction y_true as [|a l IH]; [done|].
  rewrite agreements_cons, decide_True by done. simpl. by rewrite IH.
Qed.

Lemma agreements_swap_mono s1 s2 y_pred y_true :
  (forall a b, In (a, b) (zip y_pred y_true) -> s1 a = b -> s2 b = a) ->
  agreements s1 y_pred y_true <= agreements s2 y_true y_pred.
Proof.
  revert y_true. induction y_pred as [|a y_pred IH]; intros [|b y_true] Hs;
    try (rewrite ?agreements_nil_l, ?agreements_nil_r; lia).
  rewrite !agreements_cons.
  assert (agreements s1 y_pred y_true <= agreements s2 y_true y_pred).
  { apply IH. intros a' b' Hin. apply Hs. by right. }
  destruct (decide (s1 a = b)) as [Heq|]; [|lia].
  rewrite decide_True by (apply Hs; [by left|done]). lia.
Qed.

(** Reading a matching backwards. *)
Lemma transposed_matching d sigma y_pred y_true :
  sigma ≡ₚ seq 0 d ->
  Forall (fun a => a < d) y_pred ->
  exists tau,
    tau ≡ₚ seq 0 d
    /\ agreements (column_of sigma) y_pred y_true
       <= agreements (column_of tau) y_true y_pred.
Proof.
  intros Hsigma Hp.
  pose proof (permutation_columns d sigma Hsigma) as (_ & Hrange & Hinj).
  rewrite Forall_forall in Hp.
  destruct (extend_matching d y_pred (column_of sigma) (fun a => a))
    as (f & Hfinj & Hfb & Hfext).
  - intros a Ha%list_elem_of_In. split; [apply Hrange|]; by apply Hp.
  - intros a b Ha%list_elem_of_In Hb%list_elem_of_In. apply Hinj; by apply Hp.
  - done.
  - exists (map f (seq 0 d)). split.
    + by apply nat_bijection_Permutation.
    + apply agreements_swap_mono. intros a b Hin Hab.
      assert (Ha : In a y_pred) by (eapply in_zip_l, Hin).
      unfold column_of at 1. rewrite nth_map_seq.
      * rewrite <- Hab. by apply Hfext.
      * rewrite <- Hab. apply Hrange, Hp. by apply list_elem_of_In.
Qed.

Section ExactSolver.
Variable solver : imatrix -> list nat * list nat.
Hypothesis solver_optimal : optimal_assignment solver.

(** The value of [acc_cluster]: the best number of agreements over the
    number of samples. *)
Lemma acc_cluster_value y_true y_pred :
  length y_pred = length y_true -> y_pred <> [] ->
  exists best,
    best ≡ₚ seq 0 (Nat.max (max_list y_pred) (max_list y_true) + 1)
    /\ acc_cluster solver y_true y_pred
       = Some (inject_Z (Z.of_nat
                           (agreements (column_of best) y_pred y_true))
               / inject_Z (Z.of_nat (length y_pred)))%Q
    /\ forall sigma,
         sigma ≡ₚ seq 0 (Nat.max (max_list y_pred) (max_list y_true) + 1) ->
         agreements (column_of sigma) y_pred y_true
         <= agreements (column_of best) y_pred y_true.
Proof.
  intros Hlen Hne. unfold acc_cluster. rewrite decide_True by done.
  destruct y_pred as [|a0 y_pred0] eqn:Hyp; [done|]. rewrite <- Hyp in *.
  cbv zeta.
  destruct (labels_below_D y_pred y_true) as [Hp Ht].
  destruct (matched_is_best solver solver_optimal _ y_pred y_true Hp Ht)
    as (best & Hbest & Hsum & Hmax).
  exists best. split; [done|]. split; [|done].
  by rewrite Hsum.
Qed.

(** X24. With an exact solver [acc_cluster] returns a value exactly when
    the two arrays have one non-zero length, and the value is a fraction
    between 0 and 1. *)
Theorem acc_cluster_in_unit_interval y_true y_pred :
  (length y_pred = length y_true -> y_pred <> [] ->
   exists acc, acc_cluster solver y_true y_pred = Some acc
               /\ (0 <= acc)%Q /\ (acc <= 1)%Q)
  /\ (length y_pred <> length y_true \/ y_pred = [] ->
      acc_cluster solver y_true y_pred = None).
Proof.
  split.
  - intros Hlen Hne.
    destruct (acc_cluster_value y_true y_pred Hlen Hne)
      as (best & _ & -> & _).
    eexists. split; [reflexivity|].
    assert (Hn : 0 < length y_pred) by (destruct y_pred; simpl; [done|lia]).
    destruct (count_fraction_range
                (agreements (column_of best) y_pred y_true)
                (length y_pred) Hn) as (H0 & H1 & _).
    split; [done|]. apply H1, agreements_le_length.
  - intros [Hlen | ->]; unfold acc_cluster.
    + by rewrite decide_False.
    + by destruct (decide _).
Qed.

(** X25. When the predicted clusters are the true classes under other
    names, [y_pred = perm(y_true)] for a renaming that does not merge
    two classes, the accuracy is 1. *)
Theorem acc_cluster_of_a_renaming_is_one y_true (perm : nat -> nat) :
  y_true <> [] ->
  (forall a b, In a y_true -> In b y_true -> perm a = perm b -> a = b) ->
  exists acc,
    acc_cluster solver y_true (map perm y_true) = Some acc
    /\ (acc == 1)%Q.
Proof.
  intros Hne Hinj.
  destruct (acc_cluster_value y_true (map perm y_true))
    as (best & Hbest & -> & Hmax).
  { by rewrite length_map. }
  { by destruct y_true. }
  eexists. split; [reflexivity|].
  assert (Hn : 0 < length (map perm y_true))
    by (rewrite length_map; destruct y_true; simpl; [done|lia]).
  apply (count_fraction_range _ _ Hn).
  apply Nat.le_antisymm; [apply agreements_le_length|].
  rewrite length_map.
  destruct (labels_below_D (map perm y_true) y_true) as [Hp Ht].
  rewrite Forall_forall in Hp, Ht.
  destruct (dominated
              (Nat.max (max_list (map perm y_true)) (max_list y_true) + 1)
              perm (fun a => a) y_true y_true)
    as (sigma & Hsigma & Hle).
  - intros a Ha. apply Hp, list_elem_of_In, in_map, Ha.
  - intros b Hb. by apply Ht, list_elem_of_In.
  - exact Hinj.
  - done.
  - rewrite agreements_identity in Hle.
    etransitivity; [exact Hle|]. by apply Hmax.
Qed.

(** X26. The accuracy is never below the plain agreement rate, the
    fraction of samples whose predicted index is the true label: leaving
    the names as they are is one of the matchings the solver considers. *)
Theorem acc_cluster_at_least_plain_agreement y_true y_pred :
  length y_pred = length y_true -> y_pred <> [] ->
  exists acc,
    acc_cluster solver y_true y_pred = Some acc
    /\ (inject_Z (Z.of_nat (agreements (fun a => a) y_pred y_true))
        / inject_Z (Z.of_nat (length y_pred)) <= acc)%Q.
Proof.
  intros Hlen Hne.
  destruct (acc_cluster_value y_true y_pred Hlen Hne)
    as (best & _ & -> & Hmax).
  eexists. split; [reflexivity|].
  assert (Hn : 0 < length y_pred) by (destruct y_pred; simpl; [done|lia]).
  apply count_fraction_mono; [done|].
  etransitivity;
    [|apply (Hmax (seq 0 (Nat.max (max_list y_pred) (max_list y_true) + 1)));
      reflexivity].
  apply agreements_mono. intros a b Hin ->.
  destruct (labels_below_D y_pred y_true) as [_ Ht].
  rewrite Forall_forall in Ht. unfold column_of.
  rewrite seq_nth; [done|]. eapply Ht, list_elem_of_In, in_zip_r, Hin.
Qed.

(** X27. The accuracy is symmetric: exchanging the roles of true and
    predicted labels transposes the contingency matrix and leaves the
    result as it is. *)
Theorem acc_cluster_symmetric y_true y_pred :
  acc_cluster solver y_true y_pred = acc_cluster solver y_pred y_true.
Proof.
  destruct (decide (length y_pred = length y_true)) as [Hlen | Hlen].
  2:{ unfold acc_cluster. rewrite !decide_False by congruence. done. }
  destruct y_pred as [|a0 y_pred0] eqn:Hyp.
  { destruct y_true; [|done]. unfold acc_cluster. by destruct (decide _). }
  rewrite <- Hyp in *.
  assert (Hne : y_pred <> []) by (by rewrite Hyp).
  assert (Hne' : y_true <> []).
  { intros ->. rewrite Hyp in Hlen. done. }
  destruct (acc_cluster_value y_true y_pred Hlen Hne)
    as (best & Hbest & -> & Hmax).
  destruct (acc_cluster_value y_pred y_true (eq_sym Hlen) Hne')
    as (best' & Hbest' & -> & Hmax').
  rewrite (Nat.max_comm (max_list y_true)) in Hbest', Hmax'.
  destruct (labels_below_D y_pred y_true) as [Hp Ht].
  rewrite Hlen. do 4 f_equal. apply Nat.le_antisymm.
  - destruct (transposed_matching _ best y_pred y_true Hbest Hp)
      as (tau & Htau & Hle).
    etransitivity; [exact Hle|]. by apply Hmax'.
  - destruct (transposed_matching _ best' y_true y_pred Hbest' Ht)
      as (tau & Htau & Hle).
    etransitivity; [exact Hle|]. by apply Hmax.
Qed.

End ExactSolver.

Lemma acc_cluster_in_unit_interval_witness :
  exists acc,
    acc_cluster exhaustive_assignment [0; 0; 1; 1]%nat [0; 2; 1; 1]%nat = Some acc
    /\ (0 <= acc)%Q /\ (acc <= 1)%Q.
Proof.
  apply (proj1 (acc_cluster_in_unit_interval exhaustive_assignment
                  exhaustive_assignment_optimal [0; 0; 1; 1]%nat [0; 2; 1; 1]%nat));
    [reflexivity | discriminate].
Defined.

Lemma acc_cluster_of_a_renaming_is_one_witness :
  exists acc,
    acc_cluster exhaustive_assignment [0; 0; 1]%nat
      (map (fun a => (1 - a)%nat) [0; 0; 1]%nat) = Some acc
    /\ (acc == 1)%Q.
Proof.
  apply (acc_cluster_of_a_renaming_is_one exhaustive_assignment
           exhaustive_assignment_optimal).
  - discriminate.
  - intros a b Ha Hb Heq. simpl in Ha, Hb. lia.
Defined.

Lemma acc_cluster_at_least_plain_agreement_witness :
  exists acc,
    acc_cluster exhaustive_assignment [0; 0; 1; 1]%nat [0; 2; 1; 1]%nat = Some acc
    /\ (inject_Z (Z.of_nat (agreements (fun a => a) [0; 2; 1; 1]%nat [0; 0; 1; 1]%nat))
        / inject_Z (Z.of_nat 4%nat) <= acc)%Q.
Proof.
  apply (acc_cluster_at_least_plain_agreement exhaustive_assignment
           exhaustive_assignment_optimal [0; 0; 1; 1]%nat [0; 2; 1; 1]%nat);
    [reflexivity | discriminate].
Defined.

Lemma acc_cluster_symmetric_witness :
  acc_cluster exhaustive_assignment [0; 0; 1; 1]%nat [0; 2; 1; 1]%nat
  = acc_cluster exhaustive_assignment [0; 2; 1; 1]%nat [0; 0; 1; 1]%nat.
Proof.
  apply (acc_cluster_symmetric exhaustive_assignment
           exhaustive_assignment_optimal).
Defined.

End AccuracyValue.

(** ** The life cycle of the clustering layer *)

Module LayerLifeFacts.
Import LayerLife.

Lemma dict_fold (pairs : list (string * pyobj)) (d : pydict) key :
  fold_left (fun d kv => <[kv.1 := kv.2]> d) pairs d !! key
  = match list_to_map (M:=pydict) (reverse pairs) !! key with
    | Some v => Some v
    | None => d !! key
    end.
Proof.
  revert d. induction pairs as [|[k v] pairs IH]; intros d; simpl.
  { by rewrite lookup_empty. }
  rewrite IH, reverse_cons, list_to_map_app.
  rewrite lookup_union. simpl.
  destruct (list_to_map (reverse pairs) !! key) as [v'|] eqn:Hrev.
  { by destruct (<[k:=v]> (∅ : pydict) !! key). }
  rewrite (left_id None _).
  destruct (decide (k = key)) as [->|Hne].
  - by rewrite !lookup_insert_eq.
  - rewrite !lookup_insert_ne by done. by rewrite lookup_empty.
Qed.

Lemma dict_items (d : pydict) : dict (items d) = d.
Proof.
  apply map_eq. intros key. unfold dict, items.
  rewrite dict_fold, lookup_empty.
  destruct (list_to_map (reverse (map_to_list d)) !! key) as [v|] eqn:Hl.
  - apply elem_of_list_to_map_2 in Hl. rewrite elem_of_reverse in Hl.
    by apply elem_of_map_to_list in Hl.
  - destruct (d !! key) as [v|] eqn:Hd; [|done].
    apply elem_of_map_to_list in Hd.
    apply not_elem_of_list_to_map_2 in Hl.
    exfalso. apply Hl. apply list_elem_of_fmap.
    exists (key, v). split; [done|]. by rewrite elem_of_reverse.
Qed.

Lemma dict_app (l1 l2 : list (string * pyobj)) key :
  dict (l1 ++ l2) !! key
  = match dict l2 !! key with
    | Some v => Some v
    | None => dict l1 !! key
    end.
Proof.
  unfold dict. rewrite fold_left_app, !dict_fold.
  rewrite !lookup_empty.
  by destruct (list_to_map (M:=pydict) (reverse l2) !! key).
Qed.

(** X28. The keyword arguments after the first two lines of [__init__]:
    an [input_shape] given by the caller is never replaced and the
    arguments are then left as they are, [input_dim] included; without
    one, [input_dim] is taken out and comes back as the one-element tuple
    under [input_shape]; no other key is touched, and running the two
    lines again changes nothing. *)
Theorem input_dim_becomes_input_shape (kwargs : pydict) :
  (is_Some (kwargs !! "input_shape") -> init_kwargs kwargs = kwargs)
  /\ (kwargs !! "input_shape" = None ->
      init_kwargs kwargs !! "input_dim" = None
      /\ init_kwargs kwargs !! "input_shape"
         = (fun input_dim => PyTuple [input_dim]) <$> kwargs !! "input_dim")
  /\ (forall key, key <> "input_shape" -> key <> "input_dim" ->
      init_kwargs kwargs !! key = kwargs !! key)
  /\ init_kwargs (init_kwargs kwargs) = init_kwargs kwargs.
Proof.
  unfold init_kwargs. split; [|split; [|split]].
  - by intros [s ->].
  - intros Hs. rewrite Hs.
    destruct (kwargs !! "input_dim") as [d|] eqn:Hd; simpl.
    + split; [|by rewrite lookup_insert_eq].
      rewrite lookup_insert_ne by done. by rewrite lookup_delete_eq.
    + done.
  - intros key Hshape Hdim.
    destruct (kwargs !! "input_shape"); [done|].
    destruct (kwargs !! "input_dim"); [|done].
    rewrite lookup_insert_ne by done. by rewrite lookup_delete_ne.
  - destruct (kwargs !! "input_shape") as [s|] eqn:Hs.
    { by rewrite Hs. }
    destruct (kwargs !! "input_dim") as [d|] eqn:Hd.
    + by rewrite lookup_insert_eq.
    + by rewrite Hs, Hd.
Qed.

Section WithScalar.
Context {A : Type} `{Scalar A} `{Power A}.

(** X29. The configuration of the layer is that of the base class with
    [n_clusters] entered, over an entry of that name if the base class
    has one.  Nothing else of the layer is recorded: two layers with the
    same number of clusters have the same configuration, whatever their
    [alpha] and their initial weights. *)
Theorem get_config_records_n_clusters_only (self : Unbuilt A)
    (base_config : pydict) :
  get_config self base_config
  = <["n_clusters" := PyInt (Z.of_nat (n_clusters self))]> base_config
  /\ forall weights a,
       get_config (init (n_clusters self) weights a) base_config
       = get_config self base_config.
Proof.
  assert (Hcfg : forall s : Unbuilt A,
            get_config s base_config
            = <["n_clusters" := PyInt (Z.of_nat (n_clusters s))]>
                base_config).
  { intros s. apply map_eq. intros key. unfold get_config. cbv zeta.
    rewrite dict_app, !dict_items.
    destruct (decide ("n_clusters" = key)) as [<-|Hne].
    - unfold dict. simpl. by rewrite !lookup_insert_eq.
    - unfold dict. simpl. rewrite !lookup_insert_ne by done.
      by rewrite lookup_empty. }
  split; [apply Hcfg|]. intros weights a. by rewrite !Hcfg.
Qed.

Variable add_weight : shape -> option (matrix A).
Variable set_weights : matrix A -> list (matrix A) -> option (matrix A).
Hypothesis base_layer :
  base_layer_contract (A:=A) add_weight set_weights.

Lemma call_any_shaped (layer : ClusteringLayer A) (inputs : matrix A) :
  shaped (length inputs) (length (clusters layer)) (call layer inputs).
Proof.
  unfold call. apply normalize_rows_shaped. unfold affinities.
  split; [by rewrite length_map|].
  apply Forall_map, Forall_forall. intros x _. simpl.
  by rewrite length_map.
Qed.

(** X30. A layer that [build] has built, in any dtype, with a base class
    that keeps its contract: the input shape had two dimensions with a
    known number [d] of features, the centres are an [n_clusters] x [d]
    array, namely the one array of the initial weights when there are
    any, [alpha] is the one given to [__init__], and the shape that
    [compute_output_shape] announces for a batch of [n] samples of [d]
    features is the shape of what [call] returns for it. *)
Theorem built_layer_keeps_its_promises (self : Unbuilt A)
    (input_shape : shape) (layer : ClusteringLayer A) :
  build add_weight set_weights self input_shape = Some layer ->
  exists batch d,
    input_shape = [batch; Some d]
    /\ shaped (n_clusters self) d (clusters layer)
    /\ alpha layer = init_alpha self
    /\ (forall weights, initial_weights self = Some weights ->
          weights = [clusters layer])
    /\ forall n (inputs : matrix A),
         shaped n d inputs ->
         compute_output_shape self [Some n; Some d]
         = Some [Some n; Some (n_clusters self)]
         /\ shaped n (n_clusters self) (call layer inputs).
Proof.
  destruct base_layer as [Hadd Hset]. unfold build.
  destruct input_shape as [|batch [|input_dim [|]]]; try done.
  destruct (add_weight _) as [fresh|] eqn:Hfresh; [|done].
  apply Hadd in Hfresh as (n & d & [= <- ->] & Hshape).
  assert (Hdone : forall w, w = clusters layer ->
            shaped (n_clusters self) d w ->
            forall m (inputs : matrix A),
              shaped m d inputs ->
              compute_output_shape self [Some m; Some d]
              = Some [Some m; Some (n_clusters self)]
              /\ shaped m (n_clusters self) (call layer inputs)).
  { intros w -> [Hn _] m inputs [Hm _]. split; [done|].
    rewrite <- Hn, <- Hm. apply call_any_shaped. }
  destruct (initial_weights self) as [weights|] eqn:Hinit.
  - destruct (set_weights fresh weights) as [w|] eqn:Hw; [|done].
    intros [= <-]. apply Hset in Hw as [-> Hkeep].
    exists batch, d. simpl. split; [done|].
    split; [by apply Hkeep|]. split; [done|].
    split; [by intros ? [= <-]|].
    apply (Hdone w); [done | by apply Hkeep].
  - intros [= <-]. exists batch, d. simpl. split; [done|].
    split; [done|]. split; [done|]. split; [done|].
    by apply (Hdone fresh).
Qed.

End WithScalar.

(** The stand-in for the base class meets the contract. *)
Lemma stand_in_base_layer {A : Type} `{Scalar A} :
  base_layer_contract (A:=A) zeros_weight checked_set_weights.
Proof.
  split.
  - intros s w. unfold zeros_weight.
    destruct s as [|[n|] [|[d|] [|]]]; try done.
    intros [= <-]. exists n, d. split; [done|].
    split; [by rewrite length_replicate|].
    apply Forall_replicate. by rewrite length_replicate.
  - intros cur ws w. unfold checked_set_weights.
    destruct ws as [|w' [|]]; try done.
    destruct (same_shape cur w') eqn:Hsame; [|done].
    intros [= ->]. split; [done|].
    apply bool_decide_eq_true in Hsame.
    intros n d [Hn Hrows]. split.
    + apply (f_equal length) in Hsame. rewrite !length_map in Hsame. lia.
    + apply Forall_forall. intros row Hin.
      assert (Hlen : length row ∈ map length cur).
      { rewrite <- Hsame. apply list_elem_of_fmap. by exists row. }
      apply list_elem_of_fmap in Hlen as (row' & -> & Hin').
      rewrite Forall_forall in Hrows. by apply Hrows.
Qed.

Lemma built_layer_keeps_its_promises_witness :
  exists batch d,
    [None; Some 3] = [batch; Some d]
    /\ shaped 2 d [[1; 0; 0]; [0; 1; 0]]%R
    /\ forall n (inputs : matrix R),
         shaped n d inputs ->
         shaped n 2
           (call {| alpha := 1%R; clusters := [[1; 0; 0]; [0; 1; 0]]%R |}
                 inputs).
Proof.
  destruct (built_layer_keeps_its_promises
              zeros_weight checked_set_weights stand_in_base_layer
              (init 2 (Some [[[1; 0; 0]; [0; 1; 0]]%R]) (Some 1%R))
              [None; Some 3]
              {| alpha := 1%R; clusters := [[1; 0; 0]; [0; 1; 0]]%R |}
              eq_refl)
    as (batch & d & Hshape & Hclusters & _ & _ & Hcall).
  exists batch, d. split; [exact Hshape|]. split; [exact Hclusters|].
  intros n inputs Hin. exact (proj2 (Hcall n inputs Hin)).
Defined.

End LayerLifeFacts.

(** ** The layer in binary32: overflow *)

Module LayerOverflow.
Import F32 LayerF32.

Lemma ieee_pow_satisfiable : exists fpow : Power f32, ieee_pow fpow.
Proof. exists (fun x _ => x). by split. Qed.




End LayerOverflow.
